(** * Core::ReferenceCounted and Core::Ref<T> (ReferenceCounting.hh)

    A shallow embedding of the intrusive reference counting of
    ReferenceCounting.hh: the store of reference-counted objects, the
    function-local static sentinel, the Ref handles that point into the
    store, and every member function of the two classes, written in a
    small state-and-abort monad that follows the C++ statement by statement. *)

From Stdlib Require Import ZArith Lia List.
From stdpp Require Import base option gmap list fin_maps.

Local Open Scope Z_scope.

(** ** Machine integers *)

(** Modelled from the spec: Types.hh, which declares [u32], is not among
    the sources.  The spec calls the counter a mutable unsigned counter;
    its width is the one the name of the type states, 32 bits.  A value is
    a [Z] in [0, 2^32) and arithmetic wraps around. *)
Definition u32_modulus : Z := 4294967296.

Definition u32_wrap (z : Z) : Z := z mod u32_modulus.

(** ** Pointers, objects and handles *)

(** Addresses of objects created with [new]. *)
Abbreviation addr := positive (only parsing).

(** Names of the [Ref] variables of the client program. *)
Abbreviation name := positive (only parsing).

(** An [Object*] is the null pointer, the address of the static
    [sentinel_] of [ReferenceCounted::sentinel()], or the address of an
    object on the heap. *)
Inductive ptr : Type :=
| Null
| SentinelAddr
| Heap (a : addr).

Global Instance ptr_eq_dec : EqDecision ptr.
Proof. solve_decision. Defined.

(** The program state.
    - [heap] holds [referenceCount_] of every live heap object;
    - [sentinel_] is the static of [sentinel()], [None] until the first
      call constructs it;
    - [refs] holds [object_] of every live [Ref];
    - [freed] logs every [delete this], oldest first. *)
Record state : Type := State {
  heap : gmap addr Z;
  sentinel_ : option Z;
  refs : gmap name ptr;
  freed : list addr
}.

(** ** Contract failures and the monad *)

Inductive violation : Type :=
| PreconditionViolation
| InvariantViolation.

(** A call returns normally with a value and a state, aborts the program
    in a state, or has undefined behaviour (a read through a null or
    dangling pointer, the use of a handle that does not exist). *)
Inductive outcome (A : Type) : Type :=
| Ok (x : A) (s : state)
| Fatal (v : violation) (s : state)
| Undefined.

Arguments Ok {A} x s.
Arguments Fatal {A} v s.
Arguments Undefined {A}.

Definition M (A : Type) : Type := state → outcome A.

Definition ret {A} (x : A) : M A := λ s, Ok x s.

Definition bind {A B} (m : M A) (k : A → M B) : M B :=
  λ s, match m s with
       | Ok x s' => k x s'
       | Fatal v s' => Fatal v s'
       | Undefined => Undefined
       end.

(** The notations [x ← m; k] and [m;; k] are stdpp's, for this monad. *)
Global Instance M_ret : MRet M := @ret.
Global Instance M_bind : MBind M := λ A B k m, bind m k.

(** Modelled from the spec: Assertions.hh, which defines [require_] and
    [verify_], is not among the sources.  The spec describes them as a
    precondition check and an invariant check that both abort execution
    when the condition is false and cannot be recovered from. *)
Definition require_ (b : bool) : M unit :=
  λ s, if b then Ok () s else Fatal PreconditionViolation s.

Definition verify_ (b : bool) : M unit :=
  λ s, if b then Ok () s else Fatal InvariantViolation s.

(** ** Memory accesses *)

(** The counter stored at [p], when [p] points to an object. *)
Definition rc (s : state) (p : ptr) : option Z :=
  match p with
  | Null => None
  | SentinelAddr => sentinel_ s
  | Heap a => heap s !! a
  end.

Definition set_rc (s : state) (p : ptr) (c : Z) : state :=
  match p with
  | Null => s
  | SentinelAddr => State (heap s) (Some c) (refs s) (freed s)
  | Heap a => State (<[a:=c]> (heap s)) (sentinel_ s) (refs s) (freed s)
  end.

(** Read of [p->referenceCount_]. *)
Definition load_rc (p : ptr) : M Z :=
  λ s, match rc s p with
       | Some c => Ok c s
       | None => Undefined
       end.

(** [++p->referenceCount_], the value of the expression is the new count. *)
Definition incr (p : ptr) : M Z :=
  λ s, match rc s p with
       | Some c => Ok (u32_wrap (c + 1)) (set_rc s p (u32_wrap (c + 1)))
       | None => Undefined
       end.

(** [--p->referenceCount_]. *)
Definition decr (p : ptr) : M Z :=
  λ s, match rc s p with
       | Some c => Ok (u32_wrap (c - 1)) (set_rc s p (u32_wrap (c - 1)))
       | None => Undefined
       end.

(** [delete p] for a heap object. *)
Definition delete_object (p : ptr) : M unit :=
  λ s, match p with
       | Heap a =>
           match heap s !! a with
           | Some _ => Ok () (State (delete a (heap s)) (sentinel_ s) (refs s)
                                (freed s ++ [a]))
           | None => Undefined
           end
       | _ => Undefined
       end.

(** Read and write of the member [object_] of the handle [h]. *)
Definition load_object_ (h : name) : M ptr :=
  λ s, match refs s !! h with
       | Some p => Ok p s
       | None => Undefined
       end.

Definition store_object_ (h : name) (p : ptr) : M unit :=
  λ s, match refs s !! h with
       | Some _ => Ok () (State (heap s) (sentinel_ s) (<[h:=p]> (refs s)) (freed s))
       | None => Undefined
       end.

(** The member initializer [object_(p)] of a constructor: the handle [h]
    comes into existence. *)
Definition init_object_ (h : name) (p : ptr) : M unit :=
  λ s, match refs s !! h with
       | Some _ => Undefined
       | None => Ok () (State (heap s) (sentinel_ s) (<[h:=p]> (refs s)) (freed s))
       end.

(** The end of the lifetime of the handle [h], after its destructor body. *)
Definition end_object_ (h : name) : M unit :=
  λ s, match refs s !! h with
       | Some _ => Ok () (State (heap s) (sentinel_ s) (delete h (refs s)) (freed s))
       | None => Undefined
       end.

(** ** class ReferenceCounted *)

Module ReferenceCounted.

(** [static ReferenceCounted sentinel_(1); return &sentinel_;] *)
Definition sentinel : M ptr :=
  λ s, match sentinel_ s with
       | Some _ => Ok SentinelAddr s
       | None => Ok SentinelAddr (State (heap s) (Some 1) (refs s) (freed s))
       end.

Definition isSentinel (object : ptr) : M bool :=
  q ← sentinel; ret (bool_decide (object = q)).

Definition isNotSentinel (object : ptr) : M bool :=
  q ← sentinel; ret (bool_decide (object ≠ q)).

(** [ReferenceCounted() : referenceCount_(0) {}] for an object placed at
    the fresh address [a]. *)
Definition ctor (a : addr) : M unit :=
  λ s, match heap s !! a with
       | Some _ => Undefined
       | None => Ok () (State (<[a:=0]> (heap s)) (sentinel_ s) (refs s) (freed s))
       end.

(** [ReferenceCounted(const ReferenceCounted&) : referenceCount_(0) {}]:
    the argument is bound to an object and never read. *)
Definition copy_ctor (a : addr) (other : ptr) : M unit :=
  λ s, match rc s other with
       | Some _ => ctor a s
       | None => Undefined
       end.

(** [operator=(const ReferenceCounted&) { return *this; }] *)
Definition operator_assign (this other : ptr) : M ptr :=
  λ s, match rc s this, rc s other with
       | Some _, Some _ => Ok this s
       | _, _ => Undefined
       end.

Definition refCount (this : ptr) : M Z := load_rc this.

Definition free (this : ptr) : M unit :=
  c ← load_rc this;
  require_ (c =? 0);;
  b ← isSentinel this;
  verify_ (negb b);;
  delete_object this.

End ReferenceCounted.

(** ** class Ref<T> *)

Module Ref.

Definition sentinel : M ptr := ReferenceCounted.sentinel.

Definition set (this : name) (o : ptr) : M unit :=
  old ← load_object_ this;
  store_object_ this o;;
  incr o;;
  c ← decr old;
  if c =? 0 then
    b ← ReferenceCounted.isNotSentinel old;
    verify_ b;;
    ReferenceCounted.free old
  else ret ().

(** [Ref() : object_(sentinel()) { ++object_->referenceCount_; }] *)
Definition ctor_default (this : name) : M unit :=
  p ← sentinel;
  init_object_ this p;;
  incr p;;
  ret ().

(** [explicit Ref(Object *o)] *)
Definition ctor_object (this : name) (o : ptr) : M unit :=
  init_object_ this o;;
  require_ (bool_decide (o ≠ Null));;
  incr o;;
  ret ().

(** [Ref(const Ref &r)]; the template copy constructor reads
    [r._get()] and is the same function. *)
Definition ctor_copy (this r : name) : M unit :=
  p ← load_object_ r;
  init_object_ this p;;
  incr p;;
  ret ().

(** [~Ref()] *)
Definition dtor (this : name) : M unit :=
  p ← load_object_ this;
  c ← decr p;
  (if c =? 0 then
     b ← ReferenceCounted.isNotSentinel p;
     verify_ b;;
     ReferenceCounted.free p
   else ret ());;
  end_object_ this.

(** [Ref &operator=(const Ref &rhs)] *)
Definition operator_assign (this rhs : name) : M unit :=
  o ← load_object_ rhs;
  set this o.

Definition reset (this : name) : M unit :=
  p ← load_object_ this;
  b ← ReferenceCounted.isNotSentinel p;
  if (b : bool) then
    c ← decr p;
    (if c =? 0 then ReferenceCounted.free p else ret ());;
    q ← sentinel;
    store_object_ this q;;
    incr q;;
    ret ()
  else ret ().

Definition operator_eq (this r : name) : M bool :=
  p ← load_object_ this; q ← load_object_ r; ret (bool_decide (p = q)).

Definition operator_ne (this r : name) : M bool :=
  p ← load_object_ this; q ← load_object_ r; ret (bool_decide (p ≠ q)).

Definition operator_bool (this : name) : M bool :=
  p ← load_object_ this; ReferenceCounted.isNotSentinel p.

Definition operator_not (this : name) : M bool :=
  p ← load_object_ this; ReferenceCounted.isSentinel p.

(** [Object &operator*() const]: the reference is given by the address
    of the object it denotes. *)
Definition operator_star (this : name) : M ptr :=
  p ← load_object_ this;
  b ← ReferenceCounted.isNotSentinel p;
  require_ b;;
  ret p.

Definition operator_arrow (this : name) : M ptr :=
  p ← load_object_ this;
  b ← ReferenceCounted.isNotSentinel p;
  require_ b;;
  ret p.

Definition get (this : name) : M ptr :=
  p ← load_object_ this;
  b ← ReferenceCounted.isNotSentinel p;
  ret (if (b : bool) then p else Null).

Definition _get (this : name) : M ptr := load_object_ this.

End Ref.

(** [template <class T> inline Ref<T> ref(T *o) { return Ref<T>(o); }]:
    the returned handle is constructed in the variable [result] that
    receives it. *)
Definition ref (result : name) (o : ptr) : M unit := Ref.ctor_object result o.

(** ** Client programs *)

(** The operations a client performs on handles. *)
Inductive op : Type :=
| DefaultConstruct (h : name)
| ConstructFrom (h : name) (o : ptr)
| CopyConstruct (h r : name)
| Assign (h rhs : name)
| Reset (h : name)
| Destroy (h : name).

Definition step (o : op) : M unit :=
  match o with
  | DefaultConstruct h => Ref.ctor_default h
  | ConstructFrom h o => Ref.ctor_object h o
  | CopyConstruct h r => Ref.ctor_copy h r
  | Assign h rhs => Ref.operator_assign h rhs
  | Reset h => Ref.reset h
  | Destroy h => Ref.dtor h
  end.

Fixpoint run (ops : list op) : M unit :=
  match ops with
  | [] => ret ()
  | o :: rest => step o;; run rest
  end.

(** The state of a program that has created the object [x] with [new] and
    nothing else. *)
Definition fresh_object (x : addr) : state :=
  State {[x := 0]} None ∅ [].

(** ** Counting handles *)

(** The number of live handles whose [object_] is [p]. *)
Definition owners (m : gmap name ptr) (p : ptr) : nat :=
  size (filter (λ kv, kv.2 = p) m).

(** The count an object is meant to carry: one per handle, and the one the
    sentinel is constructed with. *)
Definition expected (m : gmap name ptr) (p : ptr) : Z :=
  Z.of_nat (owners m p) + (if decide (p = SentinelAddr) then 1 else 0).

(** ** Arithmetic of the counter *)

Ltac u32_lia :=
  unfold u32_wrap, u32_modulus in *; Z.div_mod_to_equations; lia.

Lemma u32_wrap_small z : 0 ≤ z < u32_modulus → u32_wrap z = z.
Proof. intros. u32_lia. Qed.

(** ** Facts about [owners] *)

Section owners.
Implicit Types (m : gmap name ptr) (h : name) (p q : ptr).

Definition indicator (P : Prop) `{Decision P} : nat := if decide P then 1%nat else 0%nat.

Lemma owners_empty p : owners ∅ p = 0%nat.
Proof. unfold owners. by rewrite map_filter_empty, map_size_empty. Qed.

Lemma owners_insert_fresh m h q p :
  m !! h = None →
  owners (<[h:=q]> m) p = (owners m p + indicator (q = p))%nat.
Proof.
  intros Hh. unfold owners, indicator. destruct (decide (q = p)) as [->|Hne].
  - rewrite map_filter_insert_True by done.
    rewrite map_size_insert_None; [lia|].
    apply map_lookup_filter_None; auto.
  - rewrite map_filter_insert_False by done.
    rewrite delete_id by done. lia.
Qed.

Lemma owners_delete m h q p :
  m !! h = Some q →
  owners m p = (owners (delete h m) p + indicator (q = p))%nat.
Proof.
  intros Hh. rewrite <- (insert_delete_id m h q) at 1 by done.
  apply owners_insert_fresh, lookup_delete_eq.
Qed.

Lemma owners_pos m h p : m !! h = Some p → (0 < owners m p)%nat.
Proof.
  intros Hh. rewrite (owners_delete m h p p Hh). unfold indicator.
  rewrite decide_True by done. lia.
Qed.

Lemma owners_le_size m p : (owners m p ≤ size m)%nat.
Proof. apply map_subseteq_size, map_filter_subseteq. Qed.

Lemma owners_zero m p : owners m p = 0%nat → ∀ h, m !! h ≠ Some p.
Proof. intros Hz h Hh. pose proof (owners_pos m h p Hh). lia. Qed.

End owners.

(** ** Laws of the memory accesses *)

(** The state once [sentinel()] has been called. *)
Definition touch (s : state) : state :=
  State (heap s) (Some (default 1 (sentinel_ s))) (refs s) (freed s).

Ltac munfold :=
  unfold mbind, M_bind, mret, M_ret, bind, ret.

Lemma bind_unfold {A B} (m : M A) (k : A → M B) s :
  (m ≫= k) s = match m s with
               | Ok x s' => k x s'
               | Fatal v s' => Fatal v s'
               | Undefined => Undefined
               end.
Proof. reflexivity. Qed.

Lemma bind_Ok {A B} (m : M A) (k : A → M B) s x s' :
  m s = Ok x s' → (m ≫= k) s = k x s'.
Proof. munfold. by intros ->. Qed.

Lemma bind_Fatal {A B} (m : M A) (k : A → M B) s v s' :
  m s = Fatal v s' → (m ≫= k) s = Fatal v s'.
Proof. munfold. by intros ->. Qed.

Lemma bind_Undefined {A B} (m : M A) (k : A → M B) s :
  m s = Undefined → (m ≫= k) s = Undefined.
Proof. munfold. by intros ->. Qed.

Lemma touch_id s c : sentinel_ s = Some c → touch s = s.
Proof. destruct s; simpl; intros ->. reflexivity. Qed.

Lemma sentinel_spec s : ReferenceCounted.sentinel s = Ok SentinelAddr (touch s).
Proof.
  unfold ReferenceCounted.sentinel, touch.
  destruct s as [hp [c|] m l]; reflexivity.
Qed.

Lemma isSentinel_spec p s :
  ReferenceCounted.isSentinel p s = Ok (bool_decide (p = SentinelAddr)) (touch s).
Proof.
  unfold ReferenceCounted.isSentinel. by rewrite (bind_Ok _ _ _ _ _ (sentinel_spec s)).
Qed.

Lemma isNotSentinel_spec p s :
  ReferenceCounted.isNotSentinel p s = Ok (bool_decide (p ≠ SentinelAddr)) (touch s).
Proof.
  unfold ReferenceCounted.isNotSentinel. by rewrite (bind_Ok _ _ _ _ _ (sentinel_spec s)).
Qed.

Lemma rc_set_rc_eq s p c c0 : rc s p = Some c0 → rc (set_rc s p c) p = Some c.
Proof. destruct p; simpl; intros; simplify_map_eq; done. Qed.

Lemma rc_set_rc_ne s p q c : p ≠ q → rc (set_rc s p c) q = rc s q.
Proof.
  destruct p, q; simpl; intros; try done.
  apply lookup_insert_ne. congruence.
Qed.

Lemma refs_set_rc s p c : refs (set_rc s p c) = refs s.
Proof. by destruct p. Qed.

Lemma freed_set_rc s p c : freed (set_rc s p c) = freed s.
Proof. by destruct p. Qed.

Lemma rc_Some_touch s p c : rc s p = Some c → rc (touch s) p = Some c.
Proof. destruct p; simpl; try done. by intros ->. Qed.

(** The state after [delete] of the heap object at [a]. *)
Definition deleted (s : state) (a : addr) : state :=
  State (delete a (heap s)) (sentinel_ s) (refs s) (freed s ++ [a]).

(** [free] returns only for a heap object whose count is zero. *)
Lemma free_heap_zero s a :
  heap s !! a = Some 0 → ReferenceCounted.free (Heap a) s = Ok () (deleted (touch s) a).
Proof.
  intros Ha. unfold ReferenceCounted.free.
  erewrite bind_Ok by (unfold load_rc; simpl; rewrite Ha; reflexivity).
  erewrite bind_Ok by reflexivity.
  erewrite bind_Ok by apply isSentinel_spec.
  erewrite bind_Ok by reflexivity.
  unfold delete_object. simpl. by rewrite Ha.
Qed.

Lemma free_nonzero s p c :
  rc s p = Some c → c ≠ 0 → ReferenceCounted.free p s = Fatal PreconditionViolation s.
Proof.
  intros Hp Hc. unfold ReferenceCounted.free.
  erewrite bind_Ok by (unfold load_rc; rewrite Hp; reflexivity).
  apply bind_Fatal. unfold require_.
  destruct (Z.eqb_spec c 0); [done|reflexivity].
Qed.

Lemma free_sentinel_zero s :
  sentinel_ s = Some 0 →
  ReferenceCounted.free SentinelAddr s = Fatal InvariantViolation s.
Proof.
  intros Hs. unfold ReferenceCounted.free.
  erewrite bind_Ok by (unfold load_rc; simpl; rewrite Hs; reflexivity).
  erewrite bind_Ok by reflexivity.
  erewrite bind_Ok by apply isSentinel_spec.
  rewrite (touch_id s 0 Hs). reflexivity.
Qed.

Lemma free_dangling s p : rc s p = None → ReferenceCounted.free p s = Undefined.
Proof.
  intros Hp. unfold ReferenceCounted.free. apply bind_Undefined.
  unfold load_rc. by rewrite Hp.
Qed.

(** ** What each member function of [Ref] computes *)

(** The handle [h] holding [p], and the handle [h] gone. *)
Definition bound (s : state) (h : name) (p : ptr) : state :=
  State (heap s) (sentinel_ s) (<[h:=p]> (refs s)) (freed s).

Definition unbound (s : state) (h : name) : state :=
  State (heap s) (sentinel_ s) (delete h (refs s)) (freed s).

(** The outcome of the statements that follow a decrement to [c] of the
    count of [p], in [set] and in the destructor. *)
Definition released (s : state) (p : ptr) (c : Z) : outcome unit :=
  if c =? 0 then
    match p with
    | Heap a => Ok () (deleted (touch s) a)
    | _ => Fatal InvariantViolation s
    end
  else Ok () s.

Lemma release_tail s p c :
  rc s p = Some c →
  (if c =? 0 then
     b ← ReferenceCounted.isNotSentinel p; verify_ b;; ReferenceCounted.free p
   else mret ()) s = released s p c.
Proof.
  intros Hp. unfold released. destruct (Z.eqb_spec c 0) as [->|Hc]; [|reflexivity].
  erewrite bind_Ok by apply isNotSentinel_spec.
  destruct p as [| |a]; simpl in Hp; [done| |].
  - rewrite (touch_id s 0 Hp). reflexivity.
  - erewrite bind_Ok by reflexivity.
    rewrite free_heap_zero by done. reflexivity.
Qed.

Lemma ctor_default_spec s h :
  refs s !! h = None →
  Ref.ctor_default h s =
    Ok () (set_rc (bound (touch s) h SentinelAddr) SentinelAddr
             (u32_wrap (default 1 (sentinel_ s) + 1))).
Proof.
  intros Hh. unfold Ref.ctor_default, Ref.sentinel.
  erewrite bind_Ok by apply sentinel_spec.
  erewrite bind_Ok by (unfold init_object_; simpl; rewrite Hh; reflexivity).
  reflexivity.
Qed.

Lemma ctor_object_spec s h o :
  refs s !! h = None →
  Ref.ctor_object h o s =
    match o with
    | Null => Fatal PreconditionViolation (bound s h Null)
    | _ => match rc s o with
           | Some c => Ok () (set_rc (bound s h o) o (u32_wrap (c + 1)))
           | None => Undefined
           end
    end.
Proof.
  intros Hh. unfold Ref.ctor_object.
  erewrite bind_Ok by (unfold init_object_; rewrite Hh; reflexivity).
  destruct o as [| |a]; [reflexivity| |];
    (erewrite bind_Ok by reflexivity); munfold; unfold incr; simpl;
    by destruct (_ : option Z).
Qed.

Lemma ctor_copy_spec s h r p c :
  refs s !! r = Some p → refs s !! h = None → rc s p = Some c →
  Ref.ctor_copy h r s = Ok () (set_rc (bound s h p) p (u32_wrap (c + 1))).
Proof.
  intros Hr Hh Hp. unfold Ref.ctor_copy.
  erewrite bind_Ok by (unfold load_object_; rewrite Hr; reflexivity).
  erewrite bind_Ok by (unfold init_object_; rewrite Hh; reflexivity).
  munfold. unfold incr.
  replace (rc (State (heap s) (sentinel_ s) (<[h:=p]> (refs s)) (freed s)) p)
    with (Some c) by (by destruct p).
  reflexivity.
Qed.

Lemma dtor_spec s h p c0 :
  refs s !! h = Some p → rc s p = Some c0 →
  Ref.dtor h s =
    match released (set_rc s p (u32_wrap (c0 - 1))) p (u32_wrap (c0 - 1)) with
    | Ok _ s' => Ok () (unbound s' h)
    | other => other
    end.
Proof.
  intros Hh Hp. unfold Ref.dtor.
  erewrite bind_Ok by (unfold load_object_; rewrite Hh; reflexivity).
  erewrite bind_Ok by (unfold decr; rewrite Hp; reflexivity).
  rewrite bind_unfold, release_tail by (by eapply rc_set_rc_eq).
  destruct (released _ _ _) as [[] s'| |] eqn:Hrel; try reflexivity.
  unfold end_object_.
  assert (refs s' !! h = Some p) as ->; [|reflexivity].
  unfold released in Hrel. destruct (_ =? _), p; simplify_eq; simpl; done.
Qed.

Lemma set_spec s h old o co c1 :
  refs s !! h = Some old → rc s o = Some co →
  rc (set_rc (bound s h o) o (u32_wrap (co + 1))) old = Some c1 →
  Ref.set h o s =
    released (set_rc (set_rc (bound s h o) o (u32_wrap (co + 1))) old (u32_wrap (c1 - 1)))
      old (u32_wrap (c1 - 1)).
Proof.
  intros Hh Ho Hold. unfold Ref.set.
  erewrite bind_Ok by (unfold load_object_; rewrite Hh; reflexivity).
  erewrite bind_Ok by (unfold store_object_; rewrite Hh; reflexivity).
  erewrite bind_Ok.
  2:{ unfold incr.
      replace (rc (State (heap s) (sentinel_ s) (<[h:=o]> (refs s)) (freed s)) o)
        with (Some co) by (by destruct o).
      reflexivity. }
  erewrite bind_Ok by (unfold decr; fold (bound s h o); rewrite Hold; reflexivity).
  apply release_tail. by eapply rc_set_rc_eq.
Qed.

(** Assignment of the pointer the handle already holds: the count goes
    up and down again. *)
Lemma set_same_target s h o co :
  refs s !! h = Some o → rc s o = Some co → 0 < co < u32_modulus →
  Ref.set h o s = Ok () s.
Proof.
  intros Hh Ho Hco.
  assert (rc (bound s h o) o = Some co) as Ho' by (by destruct o).
  rewrite (set_spec s h o o co (u32_wrap (co + 1))) by (done || by eapply rc_set_rc_eq).
  assert (u32_wrap (u32_wrap (co + 1) - 1) = co) as -> by u32_lia.
  assert (set_rc (set_rc (bound s h o) o (u32_wrap (co + 1))) o co = s) as ->.
  { destruct s as [hp z m l], o as [| |a]; simpl in *; [done| |].
    - unfold bound. simpl. f_equal; [done|by apply insert_id].
    - unfold bound. simpl. f_equal; [|by apply insert_id].
      rewrite insert_insert_eq. by apply insert_id. }
  unfold released. destruct (Z.eqb_spec co 0); [lia|reflexivity].
Qed.

Lemma reset_void s h :
  refs s !! h = Some SentinelAddr → Ref.reset h s = Ok () (touch s).
Proof.
  intros Hh. unfold Ref.reset.
  erewrite bind_Ok by (unfold load_object_; rewrite Hh; reflexivity).
  erewrite bind_Ok by apply isNotSentinel_spec.
  reflexivity.
Qed.

(** The sentinel takes over the handle [h]: the last three statements of
    [reset]. *)
Definition voided (s : state) (h : name) : state :=
  set_rc (bound (touch s) h SentinelAddr) SentinelAddr
    (u32_wrap (default 1 (sentinel_ s) + 1)).

Lemma reset_bound s h a c0 :
  refs s !! h = Some (Heap a) → heap s !! a = Some c0 →
  Ref.reset h s =
    Ok () (voided (if u32_wrap (c0 - 1) =? 0
                   then deleted (set_rc (touch s) (Heap a) 0) a
                   else set_rc (touch s) (Heap a) (u32_wrap (c0 - 1))) h).
Proof.
  intros Hh Ha. unfold Ref.reset.
  erewrite bind_Ok by (unfold load_object_; rewrite Hh; reflexivity).
  erewrite bind_Ok by apply isNotSentinel_spec.
  rewrite bool_decide_true by done.
  erewrite bind_Ok by (unfold decr; simpl; rewrite Ha; reflexivity).
  destruct (Z.eqb_spec (u32_wrap (c0 - 1)) 0) as [Hz|Hz].
  - rewrite Hz. erewrite bind_Ok.
    2:{ rewrite free_heap_zero by (simpl; apply lookup_insert_eq). reflexivity. }
    unfold Ref.sentinel. erewrite bind_Ok by apply sentinel_spec.
    erewrite bind_Ok by (unfold store_object_; simpl; rewrite Hh; reflexivity).
    reflexivity.
  - erewrite bind_Ok by reflexivity.
    unfold Ref.sentinel. erewrite bind_Ok by apply sentinel_spec.
    erewrite bind_Ok by (unfold store_object_; simpl; rewrite Hh; reflexivity).
    reflexivity.
Qed.

(** ** Consistent states *)

(** In a consistent state every object carries, modulo [2^32], the count
    it is meant to carry, every handle points to an object that exists,
    and no object was deleted twice or is both deleted and alive. *)
Record consistent (s : state) : Prop := Consistent {
  counts_ok : ∀ p c, rc s p = Some c → c = u32_wrap (expected (refs s) p);
  targets_ok : ∀ h p, refs s !! h = Some p → is_Some (rc s p);
  freed_nodup : NoDup (freed s);
  freed_gone : ∀ a, a ∈ freed s → rc s (Heap a) = None
}.

(** No count that an object is meant to carry exceeds what a [u32] holds. *)
Definition within_u32 (s : state) : Prop :=
  ∀ p, expected (refs s) p < u32_modulus.

Lemma rc_set_rc s p c q c0 :
  rc s p = Some c0 →
  rc (set_rc s p c) q = if decide (p = q) then Some c else rc s q.
Proof.
  intros Hp. destruct (decide (p = q)) as [<-|Hne].
  - by eapply rc_set_rc_eq.
  - by apply rc_set_rc_ne.
Qed.

Lemma rc_bound s h p q : rc (bound s h p) q = rc s q.
Proof. by destruct q. Qed.

Lemma rc_unbound s h q : rc (unbound s h) q = rc s q.
Proof. by destruct q. Qed.

Lemma expected_insert_fresh m h q p :
  m !! h = None →
  expected (<[h:=q]> m) p = expected m p + Z.of_nat (indicator (q = p)).
Proof. intros Hh. unfold expected. rewrite owners_insert_fresh by done. lia. Qed.

Lemma expected_delete m h q p :
  m !! h = Some q →
  expected (delete h m) p = expected m p - Z.of_nat (indicator (q = p)).
Proof. intros Hh. unfold expected. rewrite (owners_delete m h q p Hh). lia. Qed.

Lemma expected_nonneg m p : 0 ≤ expected m p.
Proof. unfold expected. case_decide; lia. Qed.

Lemma expected_sentinel_pos m : 1 ≤ expected m SentinelAddr.
Proof. unfold expected. rewrite decide_True by done. lia. Qed.

Lemma expected_owner_pos m h p : m !! h = Some p → 1 ≤ expected m p.
Proof.
  intros Hh. pose proof (owners_pos m h p Hh). unfold expected. case_decide; lia.
Qed.

Lemma expected_by_size m p : expected m p ≤ Z.of_nat (size m) + 1.
Proof. pose proof (owners_le_size m p). unfold expected. case_decide; lia. Qed.

Lemma consistent_fresh_object x : consistent (fresh_object x).
Proof.
  split; simpl.
  - intros [| |a] c Hc; simpl in Hc; try done.
    apply lookup_singleton_Some in Hc as [_ <-].
    unfold expected. rewrite owners_empty. reflexivity.
  - intros h p Hh. by rewrite lookup_empty in Hh.
  - constructor.
  - intros a Ha. by apply elem_of_nil in Ha.
Qed.

Lemma consistent_touch s : consistent s → consistent (touch s).
Proof.
  intros [Hc Ht Hn Hg]. split; simpl; try done.
  - intros [| |a] c Hp; simpl in Hp; try done; [|by apply (Hc (Heap a))].
    destruct (sentinel_ s) as [c0|] eqn:Hs; simpl in Hp; simplify_eq.
    + by apply (Hc SentinelAddr).
    + unfold expected. rewrite decide_True by done.
      destruct (owners (refs s) SentinelAddr) eqn:Ho; [reflexivity|].
      assert (0 < owners (refs s) SentinelAddr)%nat as Hpos by lia.
      unfold owners in Hpos.
      destruct (map_size_ne_0_lookup_1 (filter (λ kv, kv.2 = SentinelAddr) (refs s)))
        as (h & p & Hh); [lia|].
      apply map_lookup_filter_Some in Hh as [Hh Hp]. simpl in Hp. subst p.
      destruct (Ht h _ Hh) as [c' Hc']. simpl in Hc'. congruence.
  - intros h p Hh. destruct (Ht h p Hh) as [c Hp]. exists c. by apply rc_Some_touch.
Qed.

(** A new handle [h] on [p], counted. *)
Lemma consistent_acquire s h p c :
  consistent s → refs s !! h = None → rc s p = Some c →
  consistent (set_rc (bound s h p) p (u32_wrap (c + 1))).
Proof.
  intros [Hc Ht Hn Hg] Hh Hp.
  assert (rc (bound s h p) p = Some c) as Hp' by (by rewrite rc_bound).
  split.
  - intros q c'. rewrite (rc_set_rc _ _ _ _ _ Hp'), refs_set_rc. simpl.
    rewrite expected_insert_fresh by done. unfold indicator.
    destruct (decide (p = q)) as [<-|Hne]; intros Hq.
    + simplify_eq. rewrite (Hc p c Hp). u32_lia.
    + rewrite rc_bound in Hq. rewrite (Hc q c' Hq). f_equal. lia.
  - intros h' q. rewrite refs_set_rc. simpl. rewrite (rc_set_rc _ _ _ _ _ Hp').
    case_decide; [by eauto|]. rewrite rc_bound.
    intros [[_ Heq]|[_ Hh']]%lookup_insert_Some; [congruence|by eapply Ht].
  - by rewrite freed_set_rc.
  - intros a. rewrite freed_set_rc. intros Ha%Hg.
    rewrite (rc_set_rc _ _ _ _ _ Hp'). case_decide; [congruence|].
    by rewrite rc_bound.
Qed.

(** The handle [h] on [p] gone, counted. *)
Lemma consistent_drop s h p c :
  consistent s → refs s !! h = Some p → rc s p = Some c →
  consistent (unbound (set_rc s p (u32_wrap (c - 1))) h).
Proof.
  intros [Hc Ht Hn Hg] Hh Hp. split.
  - intros q c'. rewrite rc_unbound, (rc_set_rc _ _ _ _ _ Hp). simpl.
    rewrite refs_set_rc, (expected_delete _ _ _ _ Hh). unfold indicator.
    destruct (decide (p = q)) as [<-|Hne]; intros Hq.
    + simplify_eq. rewrite (Hc p c Hp). u32_lia.
    + rewrite (Hc q c' Hq). f_equal. lia.
  - intros h' q. simpl. rewrite refs_set_rc, rc_unbound, (rc_set_rc _ _ _ _ _ Hp).
    case_decide; [by eauto|].
    intros [_ Hh']%lookup_delete_Some. by eapply Ht.
  - simpl. by rewrite freed_set_rc.
  - intros a. rewrite rc_unbound. unfold unbound, freed at 1.
    rewrite freed_set_rc. intros Ha%Hg.
    rewrite (rc_set_rc _ _ _ _ _ Hp). case_decide; [congruence|done].
Qed.

(** An object that nobody owns is deleted. *)
Lemma consistent_deleted s a :
  consistent s → heap s !! a = Some 0 → expected (refs s) (Heap a) < u32_modulus →
  consistent (deleted s a).
Proof.
  intros [Hc Ht Hn Hg] Ha Hlim.
  assert (owners (refs s) (Heap a) = 0%nat) as Hown.
  { pose proof (Hc (Heap a) 0 Ha) as Hz. unfold expected in *.
    rewrite decide_False in * by done. u32_lia. }
  split; simpl.
  - intros [| |a'] c Hp; simpl in Hp; try done.
    + by apply (Hc SentinelAddr).
    + apply lookup_delete_Some in Hp as [_ Hp]. by apply (Hc (Heap a')).
  - intros h p Hh. destruct (Ht h p Hh) as [c Hp].
    destruct p as [| |a']; simpl in *; try by eauto.
    exists c. rewrite lookup_delete_ne; [done|].
    intros ->. by eapply owners_zero.
  - apply NoDup_app. split_and!; [done| |apply NoDup_singleton].
    intros a' Ha' ->%list_elem_of_singleton. apply Hg in Ha'. simpl in Ha'. congruence.
  - intros a' [Ha'| ->%list_elem_of_singleton]%elem_of_app.
    + apply Hg in Ha'. simpl in Ha'. by rewrite lookup_delete_None; right.
    + apply lookup_delete_eq.
Qed.

(** After a decrement that leaves a consistent state, the rest of [set]
    and of the destructor returns, in a consistent state. *)
Lemma consistent_released s p c :
  consistent s → rc s p = Some c → expected (refs s) p < u32_modulus →
  ∃ s', released s p c = Ok () s' ∧ consistent s' ∧ refs s' = refs s.
Proof.
  intros Hs Hp Hlim. unfold released.
  destruct (Z.eqb_spec c 0) as [->|Hc]; [|by eauto].
  pose proof (counts_ok s Hs p 0 Hp) as Hz.
  pose proof (expected_nonneg (refs s) p).
  assert (expected (refs s) p = 0) as He by u32_lia.
  destruct p as [| |a]; simpl in Hp; [done| |].
  - pose proof (expected_sentinel_pos (refs s)). lia.
  - eexists. split_and!; [reflexivity| |reflexivity].
    apply consistent_deleted; [by apply consistent_touch|done|simpl; lia].
Qed.

Lemma state_ext s1 s2 :
  (∀ q, rc s1 q = rc s2 q) → refs s1 = refs s2 → freed s1 = freed s2 → s1 = s2.
Proof.
  destruct s1 as [h1 z1 m1 l1], s2 as [h2 z2 m2 l2]. simpl.
  intros Hrc -> ->. f_equal.
  - apply map_eq. intros a. apply (Hrc (Heap a)).
  - apply (Hrc SentinelAddr).
Qed.

Lemma released_unbound s p c h :
  released (unbound s h) p c =
    match released s p c with
    | Ok _ s' => Ok () (unbound s' h)
    | Fatal v s' => Fatal v (unbound s' h)
    | Undefined => Undefined
    end.
Proof. unfold released. by destruct (c =? 0), p. Qed.

Lemma released_refs s p c s' : released s p c = Ok () s' → refs s' = refs s.
Proof. unfold released. destruct (c =? 0), p; by intros [= <-]. Qed.

Lemma released_rc_other s p c s' q c0 :
  released s p c = Ok () s' → q ≠ p → rc s q = Some c0 → rc s' q = Some c0.
Proof.
  unfold released. destruct (c =? 0), p as [| |a]; intros [= <-] Hne Hq; try done.
  destruct q as [| |a']; simpl in *; [done|by rewrite Hq|].
  rewrite lookup_delete_ne by congruence. done.
Qed.

(** Outcomes that a consistent state allows: a normal return into a
    consistent state, a failed precondition, or undefined behaviour of an
    ill-formed client; never a failed invariant check. *)
Definition good (r : outcome unit) : Prop :=
  match r with
  | Ok _ s' => consistent s'
  | Fatal v _ => v = PreconditionViolation
  | Undefined => True
  end.

Lemma ctor_default_good s h : consistent s → good (Ref.ctor_default h s).
Proof.
  intros Hs. destruct (refs s !! h) as [p|] eqn:Hh.
  - unfold Ref.ctor_default, Ref.sentinel.
    erewrite bind_Ok by apply sentinel_spec.
    rewrite bind_unfold. unfold init_object_. simpl. by rewrite Hh.
  - rewrite ctor_default_spec by done.
    apply consistent_acquire; [by apply consistent_touch|done|reflexivity].
Qed.

Lemma ctor_object_good s h o : consistent s → good (Ref.ctor_object h o s).
Proof.
  intros Hs. destruct (refs s !! h) as [p|] eqn:Hh.
  - unfold Ref.ctor_object. rewrite bind_unfold. unfold init_object_. by rewrite Hh.
  - rewrite ctor_object_spec by done.
    destruct o as [| |a]; [reflexivity| |];
      (destruct (rc s _) as [c|] eqn:Hp; [|done]);
      by apply consistent_acquire.
Qed.

Lemma ctor_copy_good s h r : consistent s → good (Ref.ctor_copy h r s).
Proof.
  intros Hs. destruct (refs s !! r) as [p|] eqn:Hr.
  2:{ unfold Ref.ctor_copy. rewrite bind_unfold. unfold load_object_. by rewrite Hr. }
  destruct (refs s !! h) as [p'|] eqn:Hh.
  { unfold Ref.ctor_copy.
    erewrite bind_Ok by (unfold load_object_; rewrite Hr; reflexivity).
    rewrite bind_unfold. unfold init_object_. by rewrite Hh. }
  destruct (targets_ok s Hs r p Hr) as [c Hp].
  rewrite (ctor_copy_spec s h r p c) by done.
  by apply consistent_acquire.
Qed.

Lemma dtor_good s h : consistent s → within_u32 s → good (Ref.dtor h s).
Proof.
  intros Hs Hlim. destruct (refs s !! h) as [p|] eqn:Hh.
  2:{ unfold Ref.dtor. rewrite bind_unfold. unfold load_object_. by rewrite Hh. }
  destruct (targets_ok s Hs h p Hh) as [c Hp].
  rewrite (dtor_spec s h p c) by done.
  destruct (consistent_released (unbound (set_rc s p (u32_wrap (c - 1))) h) p
              (u32_wrap (c - 1))) as (s' & Hrel & Hs' & _).
  - by apply consistent_drop.
  - rewrite rc_unbound. by eapply rc_set_rc_eq.
  - simpl. rewrite refs_set_rc, (expected_delete _ _ _ _ Hh).
    specialize (Hlim p). lia.
  - rewrite released_unbound in Hrel.
    destruct (released (set_rc s p _) p _) as [[] s1| |]; simplify_eq. exact Hs'.
Qed.

Lemma set_good s h o :
  consistent s → within_u32 s → is_Some (rc s o) → good (Ref.set h o s).
Proof.
  intros Hs Hlim [co Ho]. destruct (refs s !! h) as [old|] eqn:Hh.
  2:{ unfold Ref.set. rewrite bind_unfold. unfold load_object_. by rewrite Hh. }
  destruct (targets_ok s Hs h old Hh) as [cold Hold].
  assert (rc (bound s h o) o = Some co) as Ho' by (by rewrite rc_bound).
  destruct (decide (o = old)) as [<-|Hne].
  - (* the handle already points to [o] *)
    rewrite (set_same_target s h o co); [exact Hs|done..|].
    pose proof (counts_ok s Hs o co Ho). pose proof (expected_owner_pos _ _ _ Hh).
    specialize (Hlim o). u32_lia.
  - (* the handle moves from [old] to [o] *)
    rewrite (set_spec s h old o co cold)
      by (done || by rewrite rc_set_rc_ne, rc_bound).
    pose proof (consistent_drop s h old cold Hs Hh Hold) as HD.
    set (sD := unbound (set_rc s old (u32_wrap (cold - 1))) h) in *.
    assert (rc sD o = Some co) as HoD.
    { unfold sD. by rewrite rc_unbound, rc_set_rc_ne. }
    assert (refs sD !! h = None) as HhD.
    { unfold sD. simpl. apply lookup_delete_eq. }
    pose proof (consistent_acquire sD h o co HD HhD HoD) as HA.
    assert (set_rc (set_rc (bound s h o) o (u32_wrap (co + 1))) old (u32_wrap (cold - 1))
            = set_rc (bound sD h o) o (u32_wrap (co + 1))) as ->.
    { apply state_ext.
      - intros q.
        rewrite (rc_set_rc _ old _ q cold) by (by rewrite rc_set_rc_ne, rc_bound).
        rewrite (rc_set_rc _ o _ q co) by (by rewrite rc_bound).
        rewrite (rc_set_rc _ o _ q co) by done.
        rewrite !rc_bound. unfold sD. rewrite rc_unbound.
        rewrite (rc_set_rc _ old _ q cold) by done.
        repeat case_decide; congruence.
      - rewrite !refs_set_rc. simpl. rewrite refs_set_rc.
        symmetry. apply insert_delete_eq.
      - rewrite !freed_set_rc. unfold sD. simpl. by rewrite freed_set_rc. }
    destruct (consistent_released _ old (u32_wrap (cold - 1)) HA) as (s' & -> & Hs' & _).
    + rewrite rc_set_rc_ne, rc_bound by done. unfold sD.
      rewrite rc_unbound. by eapply rc_set_rc_eq.
    + rewrite refs_set_rc. simpl. rewrite refs_set_rc, insert_delete_eq.
      rewrite <- (insert_delete_eq (refs s)).
      rewrite expected_insert_fresh by apply lookup_delete_eq.
      rewrite (expected_delete _ _ _ _ Hh). unfold indicator.
      rewrite decide_True, decide_False by done. specialize (Hlim old). lia.
    + exact Hs'.
Qed.

Lemma operator_assign_good s h rhs :
  consistent s → within_u32 s → good (Ref.operator_assign h rhs s).
Proof.
  intros Hs Hlim. unfold Ref.operator_assign.
  destruct (refs s !! rhs) as [o|] eqn:Hr.
  2:{ rewrite bind_unfold. unfold load_object_. by rewrite Hr. }
  erewrite bind_Ok by (unfold load_object_; rewrite Hr; reflexivity).
  apply set_good; [done..|by eapply targets_ok].
Qed.

Lemma reset_good s h : consistent s → within_u32 s → good (Ref.reset h s).
Proof.
  intros Hs Hlim. destruct (refs s !! h) as [p|] eqn:Hh.
  2:{ unfold Ref.reset. rewrite bind_unfold. unfold load_object_. by rewrite Hh. }
  destruct (targets_ok s Hs h p Hh) as [c0 Hp].
  destruct p as [| |a]; simpl in Hp; [done| |].
  { rewrite reset_void by done. by apply consistent_touch. }
  rewrite (reset_bound s h a c0) by done.
  pose proof (consistent_touch s Hs) as HT.
  pose proof (consistent_drop (touch s) h (Heap a) c0 HT Hh Hp) as HD.
  set (c := u32_wrap (c0 - 1)) in *.
  set (sD := unbound (set_rc (touch s) (Heap a) c) h) in *.
  destruct (consistent_released sD (Heap a) c HD) as (s2 & Hrel & Hs2 & Hrefs).
  { unfold sD. simpl. apply lookup_insert_eq. }
  { unfold sD. simpl. rewrite (expected_delete _ _ _ _ Hh).
    specialize (Hlim (Heap a)). lia. }
  assert (refs s2 !! h = None) as Hh2.
  { rewrite Hrefs. unfold sD. simpl. apply lookup_delete_eq. }
  assert (rc s2 SentinelAddr = Some (default 1 (sentinel_ s))) as Hsent.
  { unfold released in Hrel. destruct (c =? 0); by simplify_eq. }
  pose proof (consistent_acquire s2 h SentinelAddr _ Hs2 Hh2 Hsent) as HA.
  unfold good, voided.
  match goal with |- consistent ?x =>
    replace x with (set_rc (bound s2 h SentinelAddr) SentinelAddr
                      (u32_wrap (default 1 (sentinel_ s) + 1))); [exact HA|]
  end.
  unfold released in Hrel. unfold sD in *.
  destruct (c =? 0) eqn:Hc; simplify_eq; simpl.
  - apply Z.eqb_eq in Hc. rewrite Hc. unfold bound, deleted, touch; simpl.
    f_equal. apply insert_delete_eq.
  - unfold bound, touch; simpl. f_equal. apply insert_delete_eq.
Qed.

Lemma step_good o s : consistent s → within_u32 s → good (step o s).
Proof.
  intros Hs Hlim. destruct o; simpl.
  - by apply ctor_default_good.
  - by apply ctor_object_good.
  - by apply ctor_copy_good.
  - by apply operator_assign_good.
  - by apply reset_good.
  - by apply dtor_good.
Qed.

(** ** Runs of client programs *)

(** [within_limit ops s]: the run of [ops] from [s] never visits a state
    in which some object is meant to carry a count of [2^32] or more. *)
Fixpoint within_limit (ops : list op) (s : state) : Prop :=
  within_u32 s ∧
  match ops with
  | [] => True
  | o :: rest =>
      match step o s with
      | Ok _ s' => within_limit rest s'
      | _ => True
      end
  end.

Lemma within_limit_head ops s : within_limit ops s → within_u32 s.
Proof. destruct ops; simpl; tauto. Qed.

Lemma run_app ops1 ops2 s :
  run (ops1 ++ ops2) s =
    match run ops1 s with
    | Ok _ s' => run ops2 s'
    | other => other
    end.
Proof.
  revert s. induction ops1 as [|o ops1 IH]; intros s; simpl; [reflexivity|].
  rewrite !bind_unfold. destruct (step o s) as [[] s'| |]; [apply IH|done..].
Qed.

Lemma run_good ops s : consistent s → within_limit ops s → good (run ops s).
Proof.
  revert s. induction ops as [|o ops IH]; intros s Hs Hlim; simpl; [exact Hs|].
  destruct Hlim as [Hlim Hrest]. rewrite bind_unfold.
  pose proof (step_good o s Hs Hlim) as Hstep.
  destruct (step o s) as [[] s'| |]; simpl in *; auto.
Qed.

Lemma run_within_final ops s s' :
  within_limit ops s → run ops s = Ok () s' → within_u32 s'.
Proof.
  revert s. induction ops as [|o ops IH]; intros s Hlim Hrun; simpl in *.
  - unfold mret, M_ret, ret in Hrun. simplify_eq. tauto.
  - rewrite bind_unfold in Hrun. destruct Hlim as [_ Hrest].
    destruct (step o s) as [[] s1| |]; [by eapply IH|done..].
Qed.

(** In a consistent state within the limit the counts are exact. *)
Lemma consistent_exact s p c :
  consistent s → within_u32 s → rc s p = Some c → c = expected (refs s) p.
Proof.
  intros Hs Hlim Hp. rewrite (counts_ok s Hs p c Hp).
  apply u32_wrap_small. split; [apply expected_nonneg|apply Hlim].
Qed.

(** ** How the heap evolves *)

(** [evolves s s']: from [s] to [s'] no object came into existence, an
    object whose count changed does not end with the count zero, and the
    objects that disappeared are exactly those logged as deleted. *)
Record evolves (s s' : state) : Prop := Evolves {
  ev_alive : ∀ a c', heap s' !! a = Some c' →
                     ∃ c, heap s !! a = Some c ∧ (c' = c ∨ c' ≠ 0);
  ev_gone : ∀ a, heap s' !! a = None → heap s !! a = None ∨ a ∈ freed s';
  ev_freed : ∀ a, a ∈ freed s' → a ∈ freed s ∨ is_Some (heap s !! a);
  ev_log : ∀ a, a ∈ freed s → a ∈ freed s'
}.

Lemma evolves_same s s' : heap s' = heap s → freed s' = freed s → evolves s s'.
Proof.
  intros Hh Hf. split; rewrite ?Hh, ?Hf; eauto.
Qed.

Lemma evolves_trans s1 s2 s3 : evolves s1 s2 → evolves s2 s3 → evolves s1 s3.
Proof.
  intros [A1 G1 F1 L1] [A2 G2 F2 L2]. split.
  - intros a c3 H3. destruct (A2 a c3 H3) as (c2 & H2 & Hc2).
    destruct (A1 a c2 H2) as (c1 & H1 & Hc1). exists c1. split; [done|].
    destruct Hc2 as [->|?]; [done|by right].
  - intros a H3. destruct (G2 a H3) as [H2|?]; [|by right].
    destruct (G1 a H2) as [?|?]; [by left|right; by apply L2].
  - intros a H3. destruct (F2 a H3) as [H2|[c2 H2]]; [by apply F1|].
    destruct (A1 a c2 H2) as (c1 & H1 & _). right. by eexists.
  - intros a H1. by apply L2, L1.
Qed.

Lemma evolves_set_rc s p c c0 :
  rc s p = Some c0 → (p ≠ SentinelAddr → c ≠ 0) → evolves s (set_rc s p c).
Proof.
  intros Hp Hc. destruct p as [| |a]; simpl in Hp; [done|by apply evolves_same|].
  specialize (Hc ltac:(done)). split; simpl.
  - intros a' c'. destruct (decide (a = a')) as [<-|Hne].
    + rewrite lookup_insert_eq. intros [= <-]. eauto.
    + rewrite lookup_insert_ne by done. eauto.
  - intros a' [? _]%lookup_insert_None. by left.
  - intros a' ?. by left.
  - done.
Qed.

Lemma evolves_released s p c c0 s' :
  rc s p = Some c0 → released (set_rc s p c) p c = Ok () s' → evolves s s'.
Proof.
  intros Hp. unfold released. destruct (Z.eqb_spec c 0) as [->|Hc].
  - destruct p as [| |a]; try done. simpl in Hp. intros [= <-]. split; simpl.
    + intros a' c' [Hne Ha']%lookup_delete_Some.
      rewrite lookup_insert_ne in Ha' by done. eauto.
    + intros a' [->|Ha']%lookup_delete_None; [right; set_solver|].
      destruct (decide (a = a')) as [->|Hne]; [right; set_solver|].
      rewrite lookup_insert_ne in Ha' by done. by left.
    + intros a' [?| ->%list_elem_of_singleton]%elem_of_app; [by left|right; by eexists].
    + intros a' ?. apply elem_of_app. by left.
  - intros [= <-]. by eapply evolves_set_rc.
Qed.

(** A handle that points to an object keeps its count from being zero. *)
Lemma owned_nonzero s h p c :
  consistent s → within_u32 s → refs s !! h = Some p → rc s p = Some c → c ≠ 0.
Proof.
  intros Hs Hlim Hh Hp. rewrite (consistent_exact s p c Hs Hlim Hp).
  pose proof (expected_owner_pos _ _ _ Hh). lia.
Qed.

Lemma ctor_default_evolves s h s' :
  Ref.ctor_default h s = Ok () s' → evolves s s'.
Proof.
  destruct (refs s !! h) as [p|] eqn:Hh.
  - unfold Ref.ctor_default, Ref.sentinel.
    erewrite bind_Ok by apply sentinel_spec.
    rewrite bind_unfold. unfold init_object_. simpl. by rewrite Hh.
  - rewrite ctor_default_spec by done. intros [= <-]. by apply evolves_same.
Qed.

(** The state of a constructor that returned: the new handle counted. *)
Lemma evolves_acquire s h p c :
  rc s p = Some c → consistent (set_rc (bound s h p) p (u32_wrap (c + 1))) →
  within_u32 (set_rc (bound s h p) p (u32_wrap (c + 1))) →
  evolves s (set_rc (bound s h p) p (u32_wrap (c + 1))).
Proof.
  intros Hp Hs' Hlim'.
  assert (rc (bound s h p) p = Some c) as Hp' by (by rewrite rc_bound).
  apply (evolves_trans _ (bound s h p)); [by apply evolves_same|].
  eapply evolves_set_rc; [done|]. intros _.
  eapply (owned_nonzero _ h p); [done..| |by eapply rc_set_rc_eq].
  rewrite refs_set_rc. simpl. apply lookup_insert_eq.
Qed.

Lemma ctor_object_evolves s h o s' :
  Ref.ctor_object h o s = Ok () s' → consistent s' → within_u32 s' → evolves s s'.
Proof.
  destruct (refs s !! h) as [p|] eqn:Hh.
  - unfold Ref.ctor_object. rewrite bind_unfold. unfold init_object_. by rewrite Hh.
  - rewrite ctor_object_spec by done.
    destruct o as [| |a]; [done| |];
      (destruct (rc s _) as [c|] eqn:Hp; [|done]);
      intros [= <-]; exact (evolves_acquire s h _ c Hp).
Qed.

Lemma ctor_copy_evolves s h r s' :
  Ref.ctor_copy h r s = Ok () s' → consistent s' → within_u32 s' → evolves s s'.
Proof.
  unfold Ref.ctor_copy. rewrite bind_unfold. unfold load_object_ at 1.
  destruct (refs s !! r) as [p|] eqn:Hr; [|done].
  rewrite bind_unfold. unfold init_object_ at 1.
  destruct (refs s !! h) as [p'|] eqn:Hh; [done|].
  rewrite bind_unfold. unfold incr at 1. fold (bound s h p). rewrite rc_bound.
  destruct (rc s p) as [c|] eqn:Hp; [|done].
  intros [= <-]. exact (evolves_acquire s h p c Hp).
Qed.

Lemma dtor_evolves s h s' :
  consistent s → Ref.dtor h s = Ok () s' → evolves s s'.
Proof.
  intros Hs. destruct (refs s !! h) as [p|] eqn:Hh.
  2:{ unfold Ref.dtor. rewrite bind_unfold. unfold load_object_. by rewrite Hh. }
  destruct (targets_ok s Hs h p Hh) as [c Hp].
  rewrite (dtor_spec s h p c) by done.
  destruct (released _ _ _) as [[] s1| |] eqn:Hrel; [|done..].
  intros [= <-]. apply (evolves_trans _ s1); [|by apply evolves_same].
  by eapply evolves_released.
Qed.

Lemma operator_assign_evolves s h rhs s' :
  consistent s → within_u32 s →
  Ref.operator_assign h rhs s = Ok () s' → consistent s' → within_u32 s' →
  evolves s s'.
Proof.
  intros Hs Hlim. unfold Ref.operator_assign.
  rewrite bind_unfold. unfold load_object_ at 1.
  destruct (refs s !! rhs) as [o|] eqn:Hr; [|done].
  destruct (targets_ok s Hs rhs o Hr) as [co Ho].
  destruct (refs s !! h) as [old|] eqn:Hh.
  2:{ unfold Ref.set. rewrite bind_unfold. unfold load_object_. by rewrite Hh. }
  destruct (targets_ok s Hs h old Hh) as [cold Hold].
  destruct (decide (o = old)) as [<-|Hne].
  - rewrite (set_same_target s h o co); [|done..|].
    + intros [= <-] _ _. by apply evolves_same.
    + pose proof (consistent_exact s o co Hs Hlim Ho).
      pose proof (expected_owner_pos _ _ _ Hh). specialize (Hlim o). lia.
  - assert (rc (bound s h o) o = Some co) as Ho' by (by rewrite rc_bound).
    rewrite (set_spec s h old o co cold)
      by (done || by rewrite rc_set_rc_ne, rc_bound).
    intros Hrel Hs' Hlim'.
    set (sA := set_rc (bound s h o) o (u32_wrap (co + 1))) in *.
    assert (rc sA old = Some cold) as HoldA.
    { unfold sA. by rewrite rc_set_rc_ne, rc_bound. }
    apply (evolves_trans _ sA); [|by eapply evolves_released].
    apply (evolves_trans _ (bound s h o)); [by apply evolves_same|].
    eapply evolves_set_rc; [done|]. intros Hsent Hz.
    (* the count of [o] in [s'] is the one written here, and [h] owns [o] *)
    assert (refs s' !! h = Some o) as Hh'.
    { rewrite (released_refs _ _ _ _ Hrel), refs_set_rc. unfold sA.
      rewrite refs_set_rc. simpl. apply lookup_insert_eq. }
    assert (rc s' o = Some (u32_wrap (co + 1))) as Ho''.
    { eapply released_rc_other; [exact Hrel|done|].
      rewrite rc_set_rc_ne by done. unfold sA. by eapply rc_set_rc_eq. }
    by eapply (owned_nonzero s' h o).
Qed.

Lemma reset_evolves s h s' :
  consistent s → Ref.reset h s = Ok () s' → evolves s s'.
Proof.
  intros Hs. destruct (refs s !! h) as [p|] eqn:Hh.
  2:{ unfold Ref.reset. rewrite bind_unfold. unfold load_object_. by rewrite Hh. }
  destruct (targets_ok s Hs h p Hh) as [c0 Hp].
  destruct p as [| |a]; simpl in Hp; [done| |].
  { rewrite reset_void by done. intros [= <-]. by apply evolves_same. }
  rewrite (reset_bound s h a c0) by done. intros [= <-].
  apply (evolves_trans _ (touch s)); [by apply evolves_same|].
  eapply (evolves_trans _ (if u32_wrap (c0 - 1) =? 0
                           then deleted (set_rc (touch s) (Heap a) 0) a
                           else set_rc (touch s) (Heap a) (u32_wrap (c0 - 1))));
    [|by apply evolves_same].
  eapply (evolves_released _ (Heap a) (u32_wrap (c0 - 1))); [exact Hp|].
  unfold released. by destruct (Z.eqb_spec (u32_wrap (c0 - 1)) 0) as [->|].
Qed.

Lemma step_evolves o s s' :
  consistent s → within_u32 s → step o s = Ok () s' → within_u32 s' →
  evolves s s'.
Proof.
  intros Hs Hlim Hstep Hlim'.
  pose proof (step_good o s Hs Hlim) as Hs'. rewrite Hstep in Hs'. simpl in Hs'.
  destruct o; simpl in Hstep.
  - by eapply ctor_default_evolves.
  - by eapply ctor_object_evolves.
  - by eapply ctor_copy_evolves.
  - by eapply operator_assign_evolves.
  - by eapply reset_evolves.
  - by eapply dtor_evolves.
Qed.

Lemma run_evolves ops s s' :
  consistent s → within_limit ops s → run ops s = Ok () s' → evolves s s'.
Proof.
  revert s. induction ops as [|o ops IH]; intros s Hs Hlim Hrun; simpl in *.
  - unfold mret, M_ret, ret in Hrun. simplify_eq. by apply evolves_same.
  - rewrite bind_unfold in Hrun. destruct Hlim as [Hlim Hrest].
    pose proof (step_good o s Hs Hlim) as Hs1.
    destruct (step o s) as [[] s1| |] eqn:Hstep; [|done..]. simpl in Hs1.
    apply (evolves_trans _ s1); [|by apply IH].
    eapply step_evolves; [done..|]. by eapply within_limit_head.
Qed.

Lemma within_limit_app ops1 ops2 s s1 :
  within_limit (ops1 ++ ops2) s → run ops1 s = Ok () s1 →
  within_limit ops1 s ∧ within_limit ops2 s1.
Proof.
  revert s. induction ops1 as [|o ops1 IH]; intros s Hlim Hrun; simpl in *.
  - unfold mret, M_ret, ret in Hrun. simplify_eq.
    split; [|done]. split; [|done]. by eapply within_limit_head.
  - rewrite bind_unfold in Hrun. destruct Hlim as [Hlim Hrest].
    destruct (step o s) as [[] s'| |]; [|done..].
    destruct (IH s' Hrest Hrun) as [H1 H2]. by repeat split.
Qed.

(** A check of [within_limit] that computes: no more than [2^32 - 2]
    handles are alive in any state of the run. *)
Fixpoint fits_u32 (ops : list op) (s : state) : bool :=
  (Z.of_nat (size (refs s)) + 1 <? u32_modulus) &&
  match ops with
  | [] => true
  | o :: rest =>
      match step o s with
      | Ok _ s' => fits_u32 rest s'
      | _ => true
      end
  end.

Lemma within_u32_by_size s :
  Z.of_nat (size (refs s)) + 1 < u32_modulus → within_u32 s.
Proof. intros Hsz p. pose proof (expected_by_size (refs s) p). lia. Qed.

Lemma fits_u32_within ops s : fits_u32 ops s = true → within_limit ops s.
Proof.
  revert s. induction ops as [|o ops IH]; intros s; simpl;
    intros [Hsz Hrest]%andb_true_iff; apply Z.ltb_lt in Hsz;
    (split; [by apply within_u32_by_size|]); [done|].
  destruct (step o s) as [[] s'| |]; auto.
Qed.

Lemma owners_none m p : (∀ h, m !! h ≠ Some p) → owners m p = 0%nat.
Proof.
  intros Hno. unfold owners. apply map_size_empty_iff, map_empty.
  intros h. apply map_lookup_filter_None. right. intros q Hq Hp.
  simpl in Hp. subst q. by apply (Hno h).
Qed.

Lemma list_all_same {A} (l : list A) x :
  NoDup l → (∀ y, y ∈ l → y = x) → x ∈ l → l = [x].
Proof.
  intros Hnd Hall Hx. destruct l as [|y l]; [by apply elem_of_nil in Hx|].
  assert (y = x) as -> by (apply Hall; left).
  apply NoDup_cons in Hnd as [Hnotin _].
  destruct l as [|z l]; [done|].
  assert (z = x) as -> by (apply Hall; right; left).
  exfalso. apply Hnotin. left.
Qed.

Lemma list_no_elem {A} (l : list A) : (∀ y, y ∉ l) → l = [].
Proof. destruct l as [|y l]; [done|]. intros H. exfalso. apply (H y). left. Qed.

(** ** Well-formed programs return *)

(** What the language asks of an operation: a constructor names a new
    handle, every other operation a live one, and a pointer handed to a
    constructor points to an object that exists. *)
Definition legal_op (s : state) (o : op) : bool :=
  match o with
  | DefaultConstruct h => bool_decide (refs s !! h = None)
  | ConstructFrom h p => bool_decide (refs s !! h = None) && bool_decide (is_Some (rc s p))
  | CopyConstruct h r =>
      bool_decide (refs s !! h = None) && bool_decide (is_Some (refs s !! r))
  | Assign h rhs =>
      bool_decide (is_Some (refs s !! h)) && bool_decide (is_Some (refs s !! rhs))
  | Reset h => bool_decide (is_Some (refs s !! h))
  | Destroy h => bool_decide (is_Some (refs s !! h))
  end.

Fixpoint legal (ops : list op) (s : state) : bool :=
  match ops with
  | [] => true
  | o :: rest =>
      legal_op s o &&
      match step o s with
      | Ok _ s' => legal rest s'
      | _ => true
      end
  end.

Lemma released_returns s p c :
  (c = 0 → ∃ a, p = Heap a) → ∃ s', released s p c = Ok () s'.
Proof.
  intros Hp. unfold released. destruct (Z.eqb_spec c 0) as [Hc|Hc]; [|by eauto].
  destruct (Hp Hc) as [a ->]. by eauto.
Qed.

(** The handle whose departure brings a count to zero was the only owner,
    and what it owned is a heap object. *)
Lemma last_owner_is_heap s h p c :
  consistent s → within_u32 s → refs s !! h = Some p → rc s p = Some c →
  u32_wrap (c - 1) = 0 → ∃ a, p = Heap a.
Proof.
  intros Hs Hlim Hh Hp Hz.
  pose proof (consistent_exact s p c Hs Hlim Hp) as Hc.
  pose proof (owners_pos _ _ _ Hh) as Hpos. specialize (Hlim p).
  destruct p as [| |a]; simpl in Hp; [done| |by eauto].
  unfold expected in *. rewrite decide_True in * by done. u32_lia.
Qed.

Lemma step_returns o s :
  consistent s → within_u32 s → legal_op s o = true → ∃ s', step o s = Ok () s'.
Proof.
  intros Hs Hlim Hlegal. destruct o as [h|h o|h r|h rhs|h|h]; simpl in *.
  - apply bool_decide_eq_true in Hlegal. rewrite ctor_default_spec by done. by eauto.
  - apply andb_true_iff in Hlegal as [Hh [c Ho]%bool_decide_eq_true].
    apply bool_decide_eq_true in Hh. rewrite ctor_object_spec by done.
    destruct o as [| |a]; simpl in Ho; [done|..]; simpl; rewrite Ho; by eauto.
  - apply andb_true_iff in Hlegal as [Hh [p Hr]%bool_decide_eq_true].
    apply bool_decide_eq_true in Hh.
    destruct (targets_ok s Hs r p Hr) as [c Hp].
    rewrite (ctor_copy_spec s h r p c) by done. by eauto.
  - apply andb_true_iff in Hlegal as [[old Hh]%bool_decide_eq_true [o Hr]%bool_decide_eq_true].
    destruct (targets_ok s Hs rhs o Hr) as [co Ho].
    destruct (targets_ok s Hs h old Hh) as [cold Hold].
    unfold Ref.operator_assign.
    erewrite bind_Ok by (unfold load_object_; rewrite Hr; reflexivity).
    destruct (decide (o = old)) as [<-|Hne].
    + rewrite (set_same_target s h o co); [by eauto|done..|].
      pose proof (consistent_exact s o co Hs Hlim Ho).
      pose proof (expected_owner_pos _ _ _ Hh). specialize (Hlim o). lia.
    + rewrite (set_spec s h old o co cold)
        by (done || by rewrite rc_set_rc_ne, rc_bound).
      apply released_returns. intros Hz. by eapply last_owner_is_heap.
  - apply bool_decide_eq_true in Hlegal as [p Hh].
    destruct (targets_ok s Hs h p Hh) as [c Hp].
    destruct p as [| |a]; simpl in Hp; [done| |].
    + rewrite reset_void by done. by eauto.
    + rewrite (reset_bound s h a c) by done. by eauto.
  - apply bool_decide_eq_true in Hlegal as [p Hh].
    destruct (targets_ok s Hs h p Hh) as [c Hp].
    rewrite (dtor_spec s h p c) by done.
    destruct (released_returns (set_rc s p (u32_wrap (c - 1))) p (u32_wrap (c - 1)))
      as [s' ->]; [|by eauto].
    intros Hz. by eapply last_owner_is_heap.
Qed.

Lemma run_returns ops s :
  consistent s → within_limit ops s → legal ops s = true → ∃ s', run ops s = Ok () s'.
Proof.
  revert s. induction ops as [|o ops IH]; intros s Hs Hlim Hlegal; simpl in *.
  - by eexists.
  - apply andb_true_iff in Hlegal as [Ho Hrest]. destruct Hlim as [Hlim Hlimrest].
    destruct (step_returns o s Hs Hlim Ho) as [s1 Hstep].
    pose proof (step_good o s Hs Hlim) as Hs1.
    rewrite bind_unfold. rewrite Hstep in *. simpl in Hs1. by apply IH.
Qed.

Lemma legal_app ops1 ops2 s s1 :
  legal (ops1 ++ ops2) s = true → run ops1 s = Ok () s1 →
  legal ops1 s = true ∧ legal ops2 s1 = true.
Proof.
  revert s. induction ops1 as [|o ops1 IH]; intros s Hlegal Hrun; simpl in *.
  - unfold mret, M_ret, ret in Hrun. by simplify_eq.
  - rewrite bind_unfold in Hrun. apply andb_true_iff in Hlegal as [Ho Hrest].
    destruct (step o s) as [[] s'| |]; [|done..].
    destruct (IH s' Hrest Hrun) as [H1 H2]. split; [|done].
    apply andb_true_iff. by split.
Qed.

Lemma legal_prefix ops1 ops2 s : legal (ops1 ++ ops2) s = true → legal ops1 s = true.
Proof.
  revert s. induction ops1 as [|o ops1 IH]; intros s Hlegal; simpl in *; [done|].
  apply andb_true_iff in Hlegal as [Ho Hrest]. apply andb_true_iff. split; [done|].
  destruct (step o s) as [[] s'| |]; [by apply IH|done..].
Qed.

Lemma within_limit_prefix ops1 ops2 s :
  within_limit (ops1 ++ ops2) s → within_limit ops1 s.
Proof.
  revert s. induction ops1 as [|o ops1 IH]; intros s Hlim; simpl in *.
  - split; [|done]. by eapply within_limit_head.
  - destruct Hlim as [Hlim Hrest]. split; [done|].
    destruct (step o s) as [[] s'| |]; [by apply IH|done..].
Qed.

(** ** Scenarios *)

(** The final state of a run that returns, and [s] otherwise. *)
Definition final (ops : list op) (s : state) : state :=
  match run ops s with
  | Ok _ s' => s'
  | _ => s
  end.

(** Object [X] with count [0]; [h1(X)], count [1]; [h2 = h1], count [2];
    [h1] goes, count [1] and [X] alive; [h2] goes, [X] is deleted. *)
Example scenario_counts :
  let X := 7%positive in
  let count ops := rc (final ops (fresh_object X)) (Heap X) in
  count [] = Some 0 ∧
  count [ConstructFrom 1 (Heap X)]%positive = Some 1 ∧
  count [ConstructFrom 1 (Heap X); CopyConstruct 2 1]%positive = Some 2 ∧
  count [ConstructFrom 1 (Heap X); CopyConstruct 2 1; Destroy 1]%positive = Some 1 ∧
  count [ConstructFrom 1 (Heap X); CopyConstruct 2 1; Destroy 1; Destroy 2]%positive
    = None ∧
  freed (final [ConstructFrom 1 (Heap X); CopyConstruct 2 1; Destroy 1; Destroy 2]%positive
           (fresh_object X)) = [X].
Proof. vm_compute. repeat split. Qed.

(** A default-constructed handle is void and differs from a bound one. *)
Example scenario_default_handle :
  let s := final [DefaultConstruct 1; ConstructFrom 2 (Heap 7)]%positive (fresh_object 7) in
  Ref.operator_bool 1%positive s = Ok false s ∧
  Ref.operator_eq 1%positive 2%positive s = Ok false s ∧
  Ref.operator_ne 1%positive 2%positive s = Ok true s ∧
  Ref.get 1%positive s = Ok Null s ∧
  Ref.get 2%positive s = Ok (Heap 7) s.
Proof. vm_compute. repeat split. Qed.

(** * The claims *)

(** ** C1 *)

Lemma handles_counted (x : addr) (ops1 ops2 : list op) (s1 s2 : state) :
  within_limit (ops1 ++ ops2) (fresh_object x) →
  run ops1 (fresh_object x) = Ok () s1 →
  run ops2 s1 = Ok () s2 →
  (∀ c, heap s2 !! x = Some c →
        c = Z.of_nat (owners (refs s2) (Heap x)) ∧ freed s2 = []) ∧
  (heap s2 !! x = None →
        owners (refs s2) (Heap x) = 0%nat ∧ freed s2 = [x]) ∧
  ((0 < owners (refs s1) (Heap x))%nat → owners (refs s2) (Heap x) = 0%nat →
        heap s2 !! x = None).
Proof.
  intros Hlim Hrun1 Hrun2.
  destruct (within_limit_app _ _ _ _ Hlim Hrun1) as [Hlim1 Hlim2].
  pose proof (consistent_fresh_object x) as Hs0.
  pose proof (run_good _ _ Hs0 Hlim1) as Hs1. rewrite Hrun1 in Hs1. simpl in Hs1.
  pose proof (run_good _ _ Hs1 Hlim2) as Hs2. rewrite Hrun2 in Hs2. simpl in Hs2.
  pose proof (run_within_final _ _ _ Hlim1 Hrun1) as Hw1.
  pose proof (run_within_final _ _ _ Hlim2 Hrun2) as Hw2.
  pose proof (run_evolves _ _ _ Hs0 Hlim1 Hrun1) as He1.
  pose proof (run_evolves _ _ _ Hs1 Hlim2 Hrun2) as He2.
  pose proof (evolves_trans _ _ _ He1 He2) as He.
  assert (∀ a, a ∈ freed s2 → a = x) as Hfreed.
  { intros a Ha. destruct (ev_freed _ _ He a Ha) as [Hin|[c Hc]].
    - by apply elem_of_nil in Hin.
    - simpl in Hc. by apply lookup_singleton_Some in Hc as [-> _]. }
  assert (∀ c, heap s2 !! x = Some c → c = Z.of_nat (owners (refs s2) (Heap x))) as Hexact.
  { intros c Hc. rewrite (consistent_exact s2 (Heap x) c Hs2 Hw2 Hc).
    unfold expected. rewrite decide_False by done. lia. }
  split_and!.
  - intros c Hc. split; [by apply Hexact|].
    apply list_no_elem. intros a Ha. pose proof (Hfreed a Ha) as ->.
    apply (freed_gone s2 Hs2) in Ha. simpl in Ha. congruence.
  - intros Hgone. split.
    + apply owners_none. intros h Hh.
      destruct (targets_ok s2 Hs2 h _ Hh) as [c Hc]. simpl in Hc. congruence.
    + apply list_all_same; [by apply freed_nodup|done|].
      destruct (ev_gone _ _ He x Hgone) as [Hnever|Hin]; [|done].
      simpl in Hnever. by rewrite lookup_singleton_eq in Hnever.
  - intros Hpos Hzero. destruct (heap s2 !! x) as [c|] eqn:Hc; [|done]. exfalso.
    pose proof (Hexact c eq_refl) as Hc0. rewrite Hzero in Hc0. simpl in Hc0. subst c.
    destruct (ev_alive _ _ He2 x 0 Hc) as (c1 & Hc1 & [<-|?]); [|done].
    pose proof (consistent_exact s1 (Heap x) 0 Hs1 Hw1 Hc1) as Hbad.
    unfold expected in Hbad. rewrite decide_False in Hbad by done. lia.
Qed.

(** C1 (as amended).  A client creates one object [x] and then performs
    any well-formed sequence of handle operations (default construction,
    construction from an object, copy construction, assignment, reset,
    destruction), here split at an arbitrary point into [ops1] and [ops2].
    As long as no state of the run asks a counter to hold [2^32] or more,
    the run returns, and:
    - while [x] is alive its counter equals the number of live handles
      bound to it, and nothing has been deleted;
    - once [x] is gone no handle is bound to it and it was deleted exactly
      once;
    - if handles were bound to [x] after [ops1] and none is after [ops2],
      then [x] has been destroyed. *)
Theorem counter_is_number_of_handles (x : addr) (ops1 ops2 : list op) :
  legal (ops1 ++ ops2) (fresh_object x) = true →
  within_limit (ops1 ++ ops2) (fresh_object x) →
  ∃ s1 s2,
    run ops1 (fresh_object x) = Ok () s1 ∧
    run ops2 s1 = Ok () s2 ∧
    (∀ c, heap s2 !! x = Some c →
          c = Z.of_nat (owners (refs s2) (Heap x)) ∧ freed s2 = []) ∧
    (heap s2 !! x = None →
          owners (refs s2) (Heap x) = 0%nat ∧ freed s2 = [x]) ∧
    ((0 < owners (refs s1) (Heap x))%nat → owners (refs s2) (Heap x) = 0%nat →
          heap s2 !! x = None).
Proof.
  intros Hlegal Hlim.
  pose proof (consistent_fresh_object x) as Hs0.
  destruct (run_returns ops1 (fresh_object x) Hs0) as [s1 Hrun1];
    [by eapply within_limit_prefix|by eapply legal_prefix|].
  destruct (within_limit_app _ _ _ _ Hlim Hrun1) as [Hlim1 Hlim2].
  destruct (legal_app _ _ _ _ Hlegal Hrun1) as [_ Hlegal2].
  pose proof (run_good _ _ Hs0 Hlim1) as Hs1. rewrite Hrun1 in Hs1. simpl in Hs1.
  destruct (run_returns ops2 s1 Hs1 Hlim2 Hlegal2) as [s2 Hrun2].
  exists s1, s2. split; [done|]. split; [done|].
  by apply (handles_counted x ops1 ops2 s1 s2).
Qed.

(** The scenario of the specification: [h1(X)], [h2 = h1], then both
    handles go, the second one last. *)
Lemma counter_is_number_of_handles_witness :
  let ops1 := [ConstructFrom 1 (Heap 7); CopyConstruct 2 1; Destroy 1]%positive in
  let ops2 := [Destroy 2%positive] in
  ∃ s1 s2,
    run ops1 (fresh_object 7) = Ok () s1 ∧
    run ops2 s1 = Ok () s2 ∧
    (∀ c, heap s2 !! 7%positive = Some c →
          c = Z.of_nat (owners (refs s2) (Heap 7)) ∧ freed s2 = []) ∧
    (heap s2 !! 7%positive = None →
          owners (refs s2) (Heap 7) = 0%nat ∧ freed s2 = [7%positive]) ∧
    ((0 < owners (refs s1) (Heap 7))%nat → owners (refs s2) (Heap 7) = 0%nat →
          heap s2 !! 7%positive = None).
Proof.
  intros ops1 ops2.
  apply (counter_is_number_of_handles 7 ops1 ops2).
  - vm_compute. reflexivity.
  - apply fits_u32_within. vm_compute. reflexivity.
Defined.

(** ** Many handles *)

(** [more mk n]: [n] further handles, named [2], ..., [n + 1], each
    constructed by [mk]. *)
Fixpoint more (mk : name → op) (n : nat) : list op :=
  match n with
  | O => []
  | S k => more mk k ++ [mk (Pos.of_succ_nat (S k))]
  end.

(** One handle on the object [x], then [n] copies of it. *)
Definition crowd_ops (x : addr) (n : nat) : list op :=
  ConstructFrom 1 (Heap x) :: more (λ h, CopyConstruct h 1) n.

(** One void handle, then [n] more. *)
Definition void_ops (n : nat) : list op :=
  DefaultConstruct 1 :: more DefaultConstruct n.

(** The handles [1], ..., [n + 1], all pointing to [p]. *)
Fixpoint crowd_refs (p : ptr) (n : nat) : gmap name ptr :=
  match n with
  | O => {[1%positive := p]}
  | S k => <[Pos.of_succ_nat (S k) := p]> (crowd_refs p k)
  end.

Definition crowd (x : addr) (n : nat) : state :=
  State {[x := u32_wrap (Z.of_nat n + 1)]} None (crowd_refs (Heap x) n) [].

Definition void_crowd (x : addr) (n : nat) : state :=
  State {[x := 0]} (Some (u32_wrap (Z.of_nat n + 2))) (crowd_refs SentinelAddr n) [].

(** A large number of handles, given in binary.  Such a number is only
    reasoned about, never computed with. *)
Definition many (z : Z) : nat := Z.to_nat z.

Lemma many_Z z : 0 ≤ z → Z.of_nat (many z) = z.
Proof. apply Z2Nat.id. Qed.

Lemma many_succ z : 0 ≤ z → many (z + 1) = S (many z).
Proof. intros Hz. unfold many. rewrite Z2Nat.inj_add by lia. simpl. lia. Qed.

Global Opaque many.

Lemma crowd_refs_fresh p n h :
  (S n < Pos.to_nat h)%nat → crowd_refs p n !! h = None.
Proof.
  induction n as [|k IH]; intros Hh.
  - apply lookup_singleton_ne. intros <-. simpl in Hh. lia.
  - cbn [crowd_refs]. rewrite lookup_insert_ne.
    + apply IH. lia.
    + intros <-. rewrite SuccNat2Pos.id_succ in Hh. lia.
Qed.

Lemma crowd_refs_first p n : crowd_refs p n !! 1%positive = Some p.
Proof.
  induction n as [|k IH]; [apply lookup_singleton_eq|].
  cbn [crowd_refs]. rewrite lookup_insert_ne; [done|].
  intros Heq. apply (f_equal Pos.to_nat) in Heq.
  rewrite SuccNat2Pos.id_succ in Heq. simpl in Heq. lia.
Qed.

Lemma crowd_refs_second p n : crowd_refs p (S n) !! 2%positive = Some p.
Proof.
  induction n as [|k IH]; [apply lookup_insert_eq|].
  cbn [crowd_refs] in *. rewrite lookup_insert_ne; [done|].
  intros Heq. apply (f_equal Pos.to_nat) in Heq.
  rewrite SuccNat2Pos.id_succ in Heq. simpl in Heq. lia.
Qed.

Lemma crowd_refs_next_fresh p n : crowd_refs p n !! Pos.of_succ_nat (S n) = None.
Proof. apply crowd_refs_fresh. rewrite SuccNat2Pos.id_succ. lia. Qed.

Lemma owners_crowd_refs p n : owners (crowd_refs p n) p = S n.
Proof.
  induction n as [|k IH].
  - cbn [crowd_refs]. rewrite <- insert_empty.
    rewrite owners_insert_fresh by apply lookup_empty.
    rewrite owners_empty. unfold indicator. by rewrite decide_True.
  - cbn [crowd_refs]. rewrite owners_insert_fresh by apply crowd_refs_next_fresh.
    rewrite IH. unfold indicator. rewrite decide_True by done. lia.
Qed.

Lemma run_crowd x n : run (crowd_ops x n) (fresh_object x) = Ok () (crowd x n).
Proof.
  unfold crowd_ops. induction n as [|k IH].
  - cbn [more run step]. rewrite bind_unfold.
    rewrite ctor_object_spec by apply lookup_empty.
    cbn [rc fresh_object heap]. rewrite lookup_singleton_eq.
    unfold crowd, bound, set_rc, mret, M_ret, ret. cbn.
    f_equal; f_equal; by rewrite ?insert_singleton_eq, ?insert_empty.
  - cbn [more]. rewrite app_comm_cons, run_app, IH.
    cbn [run step]. rewrite bind_unfold.
    rewrite (ctor_copy_spec _ _ _ (Heap x) (u32_wrap (Z.of_nat k + 1))).
    + unfold crowd, bound, set_rc, mret, M_ret, ret.
      cbn [heap sentinel_ refs freed crowd_refs]. f_equal. f_equal.
      rewrite insert_singleton_eq. f_equal. rewrite Nat2Z.inj_succ. u32_lia.
    + apply crowd_refs_first.
    + apply crowd_refs_next_fresh.
    + apply lookup_singleton_eq.
Qed.

Lemma run_void_crowd x n :
  run (void_ops n) (fresh_object x) = Ok () (void_crowd x n).
Proof.
  unfold void_ops. induction n as [|k IH].
  - cbn [more run step]. rewrite bind_unfold.
    rewrite ctor_default_spec by apply lookup_empty.
    unfold void_crowd, bound, set_rc, touch, mret, M_ret, ret. cbn.
    f_equal; f_equal; by rewrite ?insert_empty.
  - cbn [more]. rewrite app_comm_cons, run_app, IH.
    cbn [run step]. rewrite bind_unfold.
    rewrite ctor_default_spec by apply crowd_refs_next_fresh.
    unfold void_crowd, bound, set_rc, touch, mret, M_ret, ret.
    cbn [heap sentinel_ refs freed crowd_refs default]. f_equal. f_equal. f_equal.
    unfold id. rewrite Nat2Z.inj_succ. u32_lia.
Qed.

(** ** C1, the claim as stated *)

(** C1 (counterexample).  A first handle on the object and [2^32 - 1]
    copies of it: the run returns, [2^32] live handles are bound to the
    object, and the [u32] counter has wrapped around to [0]. *)
Lemma counter_wraps_around :
  let ops := crowd_ops 1 (many 4294967295) in
  let s := crowd 1 (many 4294967295) in
  run ops (fresh_object 1) = Ok () s ∧
  heap s !! 1%positive = Some 0 ∧
  Z.of_nat (owners (refs s) (Heap 1)) = 4294967296.
Proof.
  split_and!.
  - apply run_crowd.
  - unfold crowd. cbn [heap]. rewrite lookup_singleton_eq, many_Z by lia. reflexivity.
  - unfold crowd. cbn [refs]. rewrite owners_crowd_refs, Nat2Z.inj_succ, many_Z by lia.
    reflexivity.
Qed.

(** ** C2 *)

(** *** The code of assignment over any monad of memory accesses *)

(** What a member function does to memory: the reads and writes of
    [object_] and [referenceCount_], the two checks, [delete], and the call
    of [sentinel()]. *)
Record accesses (T : Type → Type) : Type := Accesses {
  a_ret : ∀ A, A → T A;
  a_bind : ∀ A B, T A → (A → T B) → T B;
  a_load_object_ : name → T ptr;
  a_store_object_ : name → ptr → T unit;
  a_load_rc : ptr → T Z;
  a_incr : ptr → T Z;
  a_decr : ptr → T Z;
  a_require_ : bool → T unit;
  a_verify_ : bool → T unit;
  a_delete_object : ptr → T unit;
  a_sentinel : T ptr
}.

Arguments a_ret {T} _ {A} _.
Arguments a_bind {T} _ {A B} _ _.
Arguments a_load_object_ {T} _ _.
Arguments a_store_object_ {T} _ _ _.
Arguments a_load_rc {T} _ _.
Arguments a_incr {T} _ _.
Arguments a_decr {T} _ _.
Arguments a_require_ {T} _ _.
Arguments a_verify_ {T} _ _.
Arguments a_delete_object {T} _ _.
Arguments a_sentinel {T} _.

(** The functions that an assignment runs through, statement by statement
    as in the source, with the accesses left open. *)
Module Code.
Section code.
Context {T : Type → Type} (acc : accesses T).

Local Instance code_ret : MRet T := λ A, a_ret acc.
Local Instance code_bind : MBind T := λ A B k m, a_bind acc m k.

Definition isSentinel (object : ptr) : T bool :=
  q ← a_sentinel acc; mret (bool_decide (object = q)).

Definition isNotSentinel (object : ptr) : T bool :=
  q ← a_sentinel acc; mret (bool_decide (object ≠ q)).

Definition free (this : ptr) : T unit :=
  c ← a_load_rc acc this;
  a_require_ acc (c =? 0);;
  b ← isSentinel this;
  a_verify_ acc (negb b);;
  a_delete_object acc this.

Definition set (this : name) (o : ptr) : T unit :=
  old ← a_load_object_ acc this;
  a_store_object_ acc this o;;
  a_incr acc o;;
  c ← a_decr acc old;
  if c =? 0 then
    b ← isNotSentinel old;
    a_verify_ acc b;;
    free old
  else mret ().

Definition operator_assign (this rhs : name) : T unit :=
  o ← a_load_object_ acc rhs;
  set this o.

End code.
End Code.

(** The accesses of the state monad [M]: with them the code above is the
    code of [ReferenceCounted] and [Ref]. *)
Definition plain : accesses M :=
  Accesses M (@ret) (@bind) load_object_ store_object_ load_rc incr decr
           require_ verify_ delete_object ReferenceCounted.sentinel.

(** *** Runs that record the counts *)

(** A value written to the [referenceCount_] of an object. *)
Definition write : Type := ptr * Z.

(** A traced call returns, besides its outcome, the counts it wrote, in
    the order it wrote them. *)
Definition Traced (A : Type) : Type := state → list write * outcome A.

Definition t_ret {A} (x : A) : Traced A := λ s, ([], Ok x s).

Definition t_bind {A B} (m : Traced A) (k : A → Traced B) : Traced B :=
  λ s, match m s with
       | (l1, Ok x s') => let (l2, r) := k x s' in (l1 ++ l2, r)
       | (l1, Fatal v s') => (l1, Fatal v s')
       | (l1, Undefined) => (l1, Undefined)
       end.

(** An access that writes no count. *)
Definition silent {A} (m : M A) : Traced A := λ s, ([], m s).

(** [++] and [--]: the count written to [p] is the value of the
    expression. *)
Definition counting (p : ptr) (m : M Z) : Traced Z :=
  λ s, match m s with
       | Ok c s' => ([(p, c)], Ok c s')
       | other => ([], other)
       end.

(** [sentinel()] writes the count [1] when it constructs the sentinel. *)
Definition t_sentinel : Traced ptr :=
  λ s, match sentinel_ s with
       | Some _ => ([], ReferenceCounted.sentinel s)
       | None => ([(SentinelAddr, 1)], ReferenceCounted.sentinel s)
       end.

Definition traced : accesses Traced :=
  Accesses Traced (@t_ret) (@t_bind)
           (λ h, silent (load_object_ h)) (λ h p, silent (store_object_ h p))
           (λ p, silent (load_rc p)) (λ p, counting p (incr p))
           (λ p, counting p (decr p))
           (λ b, silent (require_ b)) (λ b, silent (verify_ b))
           (λ p, silent (delete_object p)) t_sentinel.

(** The code over [plain] is the embedding of the source. *)
Lemma code_is_the_embedding :
  (∀ object, ReferenceCounted.isSentinel object = Code.isSentinel plain object) ∧
  (∀ object, ReferenceCounted.isNotSentinel object = Code.isNotSentinel plain object) ∧
  (∀ this, ReferenceCounted.free this = Code.free plain this) ∧
  (∀ this o, Ref.set this o = Code.set plain this o) ∧
  (∀ this rhs, Ref.operator_assign this rhs = Code.operator_assign plain this rhs).
Proof. repeat split. Qed.

(** A traced run computes what the plain run computes. *)
Definition erase {A} (m : Traced A) : M A := λ s, (m s).2.

Lemma erase_bind {A B} (m : Traced A) (k : A → Traced B) s :
  erase (t_bind m k) s = (erase m ≫= λ x, erase (k x)) s.
Proof.
  unfold erase, t_bind. rewrite bind_unfold.
  destruct (m s) as [l1 [x s'|v s'|]]; simpl; [|done..].
  by destruct (k x s').
Qed.

Lemma erase_silent {A} (m : M A) s : erase (silent m) s = m s.
Proof. reflexivity. Qed.

Lemma erase_counting p (m : M Z) s : erase (counting p m) s = m s.
Proof. unfold erase, counting. by destruct (m s). Qed.

Lemma erase_sentinel s : erase t_sentinel s = ReferenceCounted.sentinel s.
Proof. unfold erase, t_sentinel. by destruct (sentinel_ s). Qed.

Lemma bind_ext {A B} (m1 m2 : M A) (k1 k2 : A → M B) s :
  m1 s = m2 s → (∀ x s', k1 x s' = k2 x s') → (m1 ≫= k1) s = (m2 ≫= k2) s.
Proof.
  intros Hm Hk. rewrite !bind_unfold, Hm. destruct (m2 s); [apply Hk|done..].
Qed.

Ltac code_unfold :=
  unfold Code.operator_assign, Code.set, Code.free, Code.isNotSentinel,
    Code.isSentinel, mbind, mret, Code.code_bind, Code.code_ret;
  cbn [a_bind a_ret a_load_object_ a_store_object_ a_load_rc a_incr a_decr
       a_require_ a_verify_ a_delete_object a_sentinel traced].

Ltac erase_step :=
  rewrite erase_bind; apply bind_ext;
  [first [apply erase_sentinel | apply erase_counting | reflexivity]|intros ? ?].

Lemma erase_isSentinel p s :
  erase (Code.isSentinel traced p) s = ReferenceCounted.isSentinel p s.
Proof. code_unfold. by erase_step. Qed.

Lemma erase_isNotSentinel p s :
  erase (Code.isNotSentinel traced p) s = ReferenceCounted.isNotSentinel p s.
Proof. code_unfold. by erase_step. Qed.

Lemma erase_free p s : erase (Code.free traced p) s = ReferenceCounted.free p s.
Proof.
  unfold Code.free, ReferenceCounted.free, mbind, Code.code_bind.
  cbn [a_bind a_load_rc a_require_ a_verify_ a_delete_object traced].
  erase_step. erase_step. rewrite erase_bind. apply bind_ext; [apply erase_isSentinel|].
  intros b s2. by erase_step.
Qed.

Lemma erase_set h o s : erase (Code.set traced h o) s = Ref.set h o s.
Proof.
  unfold Code.set, Ref.set, mbind, Code.code_bind.
  cbn [a_bind a_load_object_ a_store_object_ a_incr a_decr a_verify_ traced].
  do 4 erase_step. destruct (_ =? 0); [|reflexivity].
  rewrite erase_bind. apply bind_ext; [apply erase_isNotSentinel|].
  intros b s4. erase_step. apply erase_free.
Qed.

(** The traced assignment computes, in every state, what the assignment of
    the embedding computes. *)
Lemma erase_operator_assign h rhs s :
  (Code.operator_assign traced h rhs s).2 = Ref.operator_assign h rhs s.
Proof.
  change ((Code.operator_assign traced h rhs s).2)
    with (erase (Code.operator_assign traced h rhs) s).
  unfold Code.operator_assign, Ref.operator_assign, mbind, Code.code_bind.
  cbn [a_bind a_load_object_ traced].
  erase_step. apply erase_set.
Qed.

(** The counts that [h = rhs] writes when both handles hold [p], whose
    count [c] is in [1, 2^32): the incremented count, then [c] again. *)
Lemma traced_assignment_same_target s h rhs p c :
  refs s !! h = Some p → refs s !! rhs = Some p → rc s p = Some c →
  0 < c < u32_modulus →
  Code.operator_assign traced h rhs s = ([(p, u32_wrap (c + 1)); (p, c)], Ok () s).
Proof.
  intros Hh Hr Hp Hc.
  assert (bound s h p = s) as Hb.
  { destruct s. unfold bound. simpl in *. f_equal. by apply insert_id. }
  assert (set_rc (set_rc s p (u32_wrap (c + 1))) p c = s) as Hback.
  { destruct s as [hp z m l], p as [| |a]; simpl in *; [done|by subst|].
    f_equal. rewrite insert_insert_eq. by apply insert_id. }
  code_unfold. unfold t_bind, silent, counting.
  unfold load_object_ at 1. rewrite Hr.
  unfold load_object_ at 1. rewrite Hh.
  unfold store_object_ at 1. rewrite Hh. fold (bound s h p). rewrite Hb.
  unfold incr at 1. rewrite Hp.
  unfold decr at 1. rewrite (rc_set_rc_eq s p _ c Hp).
  replace (u32_wrap (u32_wrap (c + 1) - 1)) with c by u32_lia.
  rewrite Hback. destruct (Z.eqb_spec c 0) as [?|_]; [lia|]. reflexivity.
Qed.

(** C2 (as amended).  A handle [h], void or bound, holds [p], and the
    counter [c] of [p] is neither [0] nor [2^32 - 1].  The assignment of
    the embedding is the code [Code.operator_assign] over the plain
    accesses, and the traced run of that code computes in every state what
    the assignment computes.  In [h = h] the counts written are [c + 1] and
    then [c], in this order and no other: the counter of the target is
    never zero on the way, because the increment comes first; and the
    assignment returns in the state it started in. *)
Theorem self_assignment (s : state) (h : name) (p : ptr) (c : Z) :
  refs s !! h = Some p → rc s p = Some c → 0 < c → c + 1 < u32_modulus →
  (∀ this rhs, Ref.operator_assign this rhs = Code.operator_assign plain this rhs) ∧
  (∀ this rhs s0,
     (Code.operator_assign traced this rhs s0).2 = Ref.operator_assign this rhs s0) ∧
  Code.operator_assign traced h h s
    = ([(p, c + 1); (p, c)], Ref.operator_assign h h s) ∧
  Ref.operator_assign h h s = Ok () s.
Proof.
  intros Hh Hp Hpos Hlim.
  assert (Ref.operator_assign h h s = Ok () s) as Hassign.
  { unfold Ref.operator_assign.
    erewrite bind_Ok by (unfold load_object_; rewrite Hh; reflexivity).
    apply (set_same_target s h p c); [done..|lia]. }
  split_and!.
  - intros this rhs. apply code_is_the_embedding.
  - apply erase_operator_assign.
  - rewrite Hassign.
    rewrite (traced_assignment_same_target s h h p c) by (done || lia).
    by rewrite u32_wrap_small by (unfold u32_modulus in *; lia).
  - exact Hassign.
Qed.

Lemma self_assignment_witness :
  let s := final [ConstructFrom 1 (Heap 7)]%positive (fresh_object 7) in
  (∀ this rhs, Ref.operator_assign this rhs = Code.operator_assign plain this rhs) ∧
  (∀ this rhs s0,
     (Code.operator_assign traced this rhs s0).2 = Ref.operator_assign this rhs s0) ∧
  Code.operator_assign traced 1%positive 1%positive s
    = ([(Heap 7, 1 + 1); (Heap 7, 1)], Ref.operator_assign 1%positive 1%positive s) ∧
  Ref.operator_assign 1%positive 1%positive s = Ok () s.
Proof.
  intros s. apply (self_assignment s 1%positive (Heap 7) 1).
  - vm_compute. reflexivity.
  - vm_compute. reflexivity.
  - lia.
  - unfold u32_modulus. lia.
Defined.

(** The assignment [h = rhs] in a crowd whose counter has wrapped around
    to [0]: the object is deleted. *)
Lemma assign_in_wrapped_crowd (n : nat) (h rhs : name) :
  u32_wrap (Z.of_nat n + 1) = 0 →
  crowd_refs (Heap 1) n !! h = Some (Heap 1) →
  crowd_refs (Heap 1) n !! rhs = Some (Heap 1) →
  ∃ s', Ref.operator_assign h rhs (crowd 1 n) = Ok () s' ∧
        heap s' !! 1%positive = None ∧ freed s' = [1%positive] ∧
        refs s' = crowd_refs (Heap 1) n.
Proof.
  intros Hwrap. unfold crowd. rewrite Hwrap.
  generalize (crowd_refs (Heap 1) n). intros m Hh Hr.
  unfold Ref.operator_assign.
  erewrite bind_Ok by (unfold load_object_; cbn [refs]; rewrite Hr; reflexivity).
  rewrite (set_spec _ h (Heap 1) (Heap 1) 0 (u32_wrap (0 + 1))).
  - change (u32_wrap (u32_wrap (0 + 1) - 1)) with 0.
    unfold released. cbn [Z.eqb]. eexists. split; [reflexivity|]. split_and!.
    + cbn [deleted heap]. apply lookup_delete_eq.
    + reflexivity.
    + cbn [deleted touch refs set_rc bound]. by apply insert_id.
  - exact Hh.
  - apply lookup_singleton_eq.
  - cbn [rc set_rc bound heap]. apply lookup_insert_eq.
Qed.

Lemma crowd_at_the_limit_rc (n : nat) (c : Z) :
  u32_wrap (Z.of_nat n + 1) = c → rc (crowd 1 n) (Heap 1) = Some c.
Proof. intros <-. unfold crowd. cbn [rc heap]. apply lookup_singleton_eq. Qed.

Lemma wrap_4294967295 : u32_wrap (Z.of_nat (many 4294967295) + 1) = 0.
Proof. rewrite many_Z by lia. reflexivity. Qed.

Lemma wrap_4294967294 : u32_wrap (Z.of_nat (many 4294967294) + 1) = 4294967295.
Proof. rewrite many_Z by lia. reflexivity. Qed.

Lemma traced_self_assignment_in_full_crowd (n : nat) :
  u32_wrap (Z.of_nat n + 1) = 4294967295 →
  Code.operator_assign traced 1%positive 1%positive (crowd 1 n)
    = ([(Heap 1, 0); (Heap 1, 4294967295)], Ok () (crowd 1 n)).
Proof.
  intros Hn.
  rewrite (traced_assignment_same_target (crowd 1 n) 1%positive 1%positive
             (Heap 1) 4294967295).
  - reflexivity.
  - apply crowd_refs_first.
  - apply crowd_refs_first.
  - by apply crowd_at_the_limit_rc.
  - unfold u32_modulus. lia.
Qed.

(** C2 (counterexample).  With [2^32 - 1] handles on one object the
    counter is [2^32 - 1], and the counts that a self-assignment writes are
    [0] and then [2^32 - 1]: the target is at count zero on the way.  With
    [2^32] handles the counter has wrapped to [0] and a self-assignment
    deletes the object under all of them. *)
Lemma self_assignment_at_the_limit :
  (run (crowd_ops 1 (many 4294967294)) (fresh_object 1)
     = Ok () (crowd 1 (many 4294967294)) ∧
   refs (crowd 1 (many 4294967294)) !! 1%positive = Some (Heap 1) ∧
   rc (crowd 1 (many 4294967294)) (Heap 1) = Some 4294967295 ∧
   Code.operator_assign traced 1%positive 1%positive (crowd 1 (many 4294967294))
     = ([(Heap 1, 0); (Heap 1, 4294967295)], Ok () (crowd 1 (many 4294967294)))) ∧
  (run (crowd_ops 1 (many 4294967295)) (fresh_object 1)
     = Ok () (crowd 1 (many 4294967295)) ∧
   refs (crowd 1 (many 4294967295)) !! 1%positive = Some (Heap 1) ∧
   ∃ s', Ref.operator_assign 1%positive 1%positive (crowd 1 (many 4294967295))
           = Ok () s' ∧
         heap s' !! 1%positive = None ∧ freed s' = [1%positive]).
Proof.
  split.
  - split; [apply run_crowd|]. split; [apply crowd_refs_first|].
    split; [apply crowd_at_the_limit_rc, wrap_4294967294|].
    apply traced_self_assignment_in_full_crowd, wrap_4294967294.
  - split; [apply run_crowd|]. split; [apply crowd_refs_first|].
    destruct (assign_in_wrapped_crowd (many 4294967295) 1%positive 1%positive)
      as (s' & H1 & H2 & H3 & _).
    + apply wrap_4294967295.
    + apply crowd_refs_first.
    + apply crowd_refs_first.
    + exists s'. split; [exact H1|]. split; [exact H2|exact H3].
Qed.

(** ** C3 *)

(** C3 (as amended).  [A] and [B] are bound to the same object, whose
    counter is not [0]: [A = B] returns in the state it started in, so the
    counter is unchanged and both handles are still bound to the object. *)
Theorem assignment_between_sharers (s : state) (A B : name) (a : addr) (c : Z) :
  refs s !! A = Some (Heap a) → refs s !! B = Some (Heap a) →
  heap s !! a = Some c → 0 < c < u32_modulus →
  ∃ s', Ref.operator_assign A B s = Ok () s' ∧
        heap s' !! a = Some c ∧
        refs s' !! A = Some (Heap a) ∧ refs s' !! B = Some (Heap a) ∧
        s' = s.
Proof.
  intros HA HB Ha Hc. exists s. split_and!; try done.
  unfold Ref.operator_assign.
  erewrite bind_Ok by (unfold load_object_; rewrite HB; reflexivity).
  by apply (set_same_target s A (Heap a) c).
Qed.

Lemma assignment_between_sharers_witness :
  let s := final [ConstructFrom 1 (Heap 7); CopyConstruct 2 1]%positive (fresh_object 7) in
  ∃ s', Ref.operator_assign 1%positive 2%positive s = Ok () s' ∧
        heap s' !! 7%positive = Some 2 ∧
        refs s' !! 1%positive = Some (Heap 7) ∧ refs s' !! 2%positive = Some (Heap 7) ∧
        s' = s.
Proof.
  intros s. apply (assignment_between_sharers s 1%positive 2%positive 7%positive 2).
  - vm_compute. reflexivity.
  - vm_compute. reflexivity.
  - vm_compute. reflexivity.
  - unfold u32_modulus. lia.
Defined.

(** C3 (counterexample).  [2^32] handles share one object and its counter
    has wrapped to [0].  The assignment between two of them increments the
    counter to [1], decrements it to [0] and deletes the object: the
    counter is gone and both handles dangle. *)
Lemma assignment_between_sharers_at_the_limit :
  run (crowd_ops 1 (many 4294967295)) (fresh_object 1)
    = Ok () (crowd 1 (many 4294967295)) ∧
  refs (crowd 1 (many 4294967295)) !! 1%positive = Some (Heap 1) ∧
  refs (crowd 1 (many 4294967295)) !! 2%positive = Some (Heap 1) ∧
  ∃ s', Ref.operator_assign 1%positive 2%positive (crowd 1 (many 4294967295))
          = Ok () s' ∧
        heap s' !! 1%positive = None ∧
        refs s' !! 1%positive = Some (Heap 1) ∧ refs s' !! 2%positive = Some (Heap 1).
Proof.
  assert (crowd_refs (Heap 1) (many 4294967295) !! 2%positive = Some (Heap 1)) as H2.
  { replace 4294967295 with (4294967294 + 1) by reflexivity.
    rewrite many_succ by lia. apply crowd_refs_second. }
  split; [apply run_crowd|]. split; [apply crowd_refs_first|]. split; [exact H2|].
  destruct (assign_in_wrapped_crowd (many 4294967295) 1%positive 2%positive)
    as (s' & Hrun & Hgone & _ & Hrefs).
  - apply wrap_4294967295.
  - apply crowd_refs_first.
  - exact H2.
  - exists s'. rewrite Hrefs. split; [exact Hrun|]. split; [exact Hgone|].
    split; [apply crowd_refs_first|exact H2].
Qed.

(** ** C4 *)

(** C4 (as amended).  [sentinel()] constructs the sentinel with the count
    [1] on its first call and leaves it alone afterwards.  From a
    consistent state, and as long as no state of the run asks a counter to
    hold [2^32] or more, no run of handle operations ends in a failed
    invariant check, that is, neither [verify_] that guards the deletion is
    ever reached with the sentinel, and after the run the count of the
    sentinel is one more than the number of void handles, hence at least
    [1]. *)
Theorem sentinel_is_never_destroyed (ops : list op) (s0 : state) :
  consistent s0 → within_limit ops s0 →
  (∀ s, sentinel_ s = None →
        ReferenceCounted.sentinel s
          = Ok SentinelAddr (State (heap s) (Some 1) (refs s) (freed s))) ∧
  (∀ s c, sentinel_ s = Some c → ReferenceCounted.sentinel s = Ok SentinelAddr s) ∧
  (∀ sf, run ops s0 ≠ Fatal InvariantViolation sf) ∧
  (∀ s c, run ops s0 = Ok () s → sentinel_ s = Some c →
          c = 1 + Z.of_nat (owners (refs s) SentinelAddr) ∧ 1 ≤ c).
Proof.
  intros Hs0 Hlim. split_and!.
  - intros s Hs. unfold ReferenceCounted.sentinel. by rewrite Hs.
  - intros s c Hs. unfold ReferenceCounted.sentinel. by rewrite Hs.
  - intros sf Hrun. pose proof (run_good ops s0 Hs0 Hlim) as Hgood.
    rewrite Hrun in Hgood. simpl in Hgood. discriminate.
  - intros s c Hrun Hc. pose proof (run_good ops s0 Hs0 Hlim) as Hgood.
    rewrite Hrun in Hgood. simpl in Hgood.
    pose proof (run_within_final ops s0 s Hlim Hrun) as Hw.
    pose proof (consistent_exact s SentinelAddr c Hgood Hw Hc) as Hex.
    unfold expected in Hex. rewrite decide_True in Hex by done. lia.
Qed.

Lemma sentinel_is_never_destroyed_witness :
  let ops := [DefaultConstruct 1; CopyConstruct 2 1; Reset 2; Assign 2 1;
              Destroy 1; Destroy 2]%positive in
  let s0 := fresh_object 7 in
  (∀ s, sentinel_ s = None →
        ReferenceCounted.sentinel s
          = Ok SentinelAddr (State (heap s) (Some 1) (refs s) (freed s))) ∧
  (∀ s c, sentinel_ s = Some c → ReferenceCounted.sentinel s = Ok SentinelAddr s) ∧
  (∀ sf, run ops s0 ≠ Fatal InvariantViolation sf) ∧
  (∀ s c, run ops s0 = Ok () s → sentinel_ s = Some c →
          c = 1 + Z.of_nat (owners (refs s) SentinelAddr) ∧ 1 ≤ c).
Proof.
  intros ops s0. apply (sentinel_is_never_destroyed ops s0).
  - apply consistent_fresh_object.
  - apply fits_u32_within. vm_compute. reflexivity.
Defined.

Lemma dtor_in_void_crowd (n : nat) :
  u32_wrap (Z.of_nat n + 2) = 1 →
  Ref.dtor 1%positive (void_crowd 1 n)
    = Fatal InvariantViolation (set_rc (void_crowd 1 n) SentinelAddr 0).
Proof.
  intros Hwrap.
  rewrite (dtor_spec _ 1%positive SentinelAddr 1).
  - change (u32_wrap (1 - 1)) with 0. reflexivity.
  - apply crowd_refs_first.
  - unfold void_crowd. cbn [rc sentinel_]. by rewrite Hwrap.
Qed.

(** C4 (counterexample).  After [2^32 - 1] default constructions the
    count of the sentinel has wrapped around to [0].  After [2^32] of them
    it is [1] again, the destructor of any of these handles decrements it
    to [0], takes the destruction branch with the sentinel, and
    [verify_(Object::isNotSentinel(object_))] fails. *)
Lemma sentinel_counter_at_the_limit :
  run (void_ops (many 4294967294)) (fresh_object 1)
    = Ok () (void_crowd 1 (many 4294967294)) ∧
  sentinel_ (void_crowd 1 (many 4294967294)) = Some 0 ∧
  run (void_ops (many 4294967295)) (fresh_object 1)
    = Ok () (void_crowd 1 (many 4294967295)) ∧
  run (void_ops (many 4294967295) ++ [Destroy 1%positive]) (fresh_object 1)
    = Fatal InvariantViolation (set_rc (void_crowd 1 (many 4294967295)) SentinelAddr 0).
Proof.
  assert (u32_wrap (Z.of_nat (many 4294967295) + 2) = 1) as Hone.
  { rewrite many_Z by lia. reflexivity. }
  split; [apply run_void_crowd|]. split.
  { unfold void_crowd. cbn [sentinel_]. rewrite many_Z by lia. reflexivity. }
  split; [apply run_void_crowd|].
  rewrite run_app, run_void_crowd. cbn [run step].
  rewrite bind_unfold, (dtor_in_void_crowd _ Hone). reflexivity.
Qed.

(** ** C5 *)

(** C5.  [free] returns, with the storage released, exactly when [this] is
    a heap object whose count is [0]; the sentinel may by then have been
    constructed by the call of [isSentinel].  With a count other than [0]
    the call aborts at [require_], and on the sentinel it aborts at
    [require_] or at [verify_]: in neither case does it return. *)
Theorem free_contract (s : state) (this : ptr) :
  (∀ s', ReferenceCounted.free this s = Ok () s' ↔
         ∃ a, this = Heap a ∧ heap s !! a = Some 0 ∧ s' = deleted (touch s) a) ∧
  (∀ c, rc s this = Some c → c ≠ 0 →
        ReferenceCounted.free this s = Fatal PreconditionViolation s) ∧
  (∀ c, this = SentinelAddr → sentinel_ s = Some c →
        ReferenceCounted.free this s
          = Fatal (if c =? 0 then InvariantViolation else PreconditionViolation) s).
Proof.
  split_and!.
  - intros s'. split.
    + destruct (rc s this) as [c|] eqn:Hc; [|by rewrite free_dangling].
      destruct (decide (c = 0)) as [->|Hne]; [|by rewrite (free_nonzero s this c)].
      destruct this as [| |a]; simpl in Hc; [done|by rewrite free_sentinel_zero|].
      rewrite free_heap_zero by done. intros [= <-]. by exists a.
    + intros (a & -> & Ha & ->). by apply free_heap_zero.
  - intros c Hc Hne. by apply (free_nonzero s this c).
  - intros c -> Hc. destruct (Z.eqb_spec c 0) as [->|Hne].
    + by apply free_sentinel_zero.
    + by apply (free_nonzero s SentinelAddr c).
Qed.

Lemma free_contract_witness :
  let s := fresh_object 7 in
  ReferenceCounted.free (Heap 7) s = Ok () (deleted (touch s) 7) ∧
  ReferenceCounted.free SentinelAddr (touch s) = Fatal PreconditionViolation (touch s).
Proof.
  intros s. split.
  - apply (proj1 (free_contract s (Heap 7))). exists 7%positive.
    split; [reflexivity|]. split; [vm_compute; reflexivity|reflexivity].
  - apply (proj1 (proj2 (free_contract (touch s) SentinelAddr)) 1).
    + vm_compute. reflexivity.
    + lia.
Defined.

(** ** C6 *)

(** C6.  For a live handle in a state where a void handle implies that the
    sentinel has been constructed: [operator*] and [operator->] abort at
    [require_], in the unchanged state, when the handle is void, and
    otherwise return the pointer held, changing no counter and no handle
    (the call of [isNotSentinel] may construct the sentinel). *)
Theorem dereference_contract (s : state) (h : name) (p : ptr) :
  refs s !! h = Some p →
  (p = SentinelAddr → is_Some (sentinel_ s)) →
  if decide (p = SentinelAddr)
  then Ref.operator_star h s = Fatal PreconditionViolation s ∧
       Ref.operator_arrow h s = Fatal PreconditionViolation s
  else Ref.operator_star h s = Ok p (touch s) ∧
       Ref.operator_arrow h s = Ok p (touch s).
Proof.
  intros Hh Hsent. unfold Ref.operator_star, Ref.operator_arrow.
  erewrite !bind_Ok
    by (apply isNotSentinel_spec || (unfold load_object_; rewrite Hh; reflexivity)).
  destruct (decide (p = SentinelAddr)) as [->|Hne].
  - destruct (Hsent eq_refl) as [c Hc]. rewrite (touch_id s c Hc).
    by rewrite bool_decide_false by (intros ?; done).
  - by rewrite bool_decide_true by done.
Qed.

Lemma dereference_contract_witness :
  let s := final [DefaultConstruct 1]%positive (fresh_object 7) in
  Ref.operator_star 1%positive s = Fatal PreconditionViolation s ∧
  Ref.operator_arrow 1%positive s = Fatal PreconditionViolation s.
Proof.
  intros s. apply (dereference_contract s 1%positive SentinelAddr).
  - vm_compute. reflexivity.
  - intros _. exists 2. vm_compute. reflexivity.
Defined.

(** ** C7 *)

Lemma reset_twice s h s' : Ref.reset h s = Ok () s' → Ref.reset h s' = Ok () s'.
Proof.
  destruct (refs s !! h) as [p|] eqn:Hh.
  2:{ unfold Ref.reset. rewrite bind_unfold. unfold load_object_. by rewrite Hh. }
  destruct p as [| |a].
  - unfold Ref.reset.
    erewrite bind_Ok by (unfold load_object_; rewrite Hh; reflexivity).
    erewrite bind_Ok by apply isNotSentinel_spec.
    rewrite bool_decide_true by done. by rewrite bind_unfold.
  - rewrite reset_void by done. intros [= <-].
    rewrite reset_void by done. reflexivity.
  - destruct (heap s !! a) as [c0|] eqn:Ha.
    + rewrite (reset_bound s h a c0) by done. intros [= <-].
      rewrite reset_void.
      * unfold voided. by destruct (_ =? 0).
      * unfold voided. destruct (_ =? 0); apply lookup_insert_eq.
    + unfold Ref.reset.
      erewrite bind_Ok by (unfold load_object_; rewrite Hh; reflexivity).
      erewrite bind_Ok by apply isNotSentinel_spec.
      rewrite bool_decide_true by done.
      rewrite bind_unfold. unfold decr. simpl. by rewrite Ha.
Qed.

(** C7.  [reset] on a handle bound to the heap object [a] with count [c]
    returns; the count of [a] is decremented, and [a] is deleted exactly
    when the decrement reaches [0]; the handle holds the sentinel, whose
    count (which is [1] if this call constructs it) is incremented.
    [reset] on a void handle returns in the same state.  A second [reset]
    after one that returned changes nothing. *)
Theorem reset_contract (s : state) (h : name) :
  (∀ a c, refs s !! h = Some (Heap a) → heap s !! a = Some c →
     ∃ s', Ref.reset h s = Ok () s' ∧
           refs s' = <[h:=SentinelAddr]> (refs s) ∧
           sentinel_ s' = Some (u32_wrap (default 1 (sentinel_ s) + 1)) ∧
           if u32_wrap (c - 1) =? 0
           then heap s' = delete a (heap s) ∧ freed s' = freed s ++ [a]
           else heap s' = <[a:=u32_wrap (c - 1)]> (heap s) ∧ freed s' = freed s) ∧
  (refs s !! h = Some SentinelAddr → is_Some (sentinel_ s) →
     Ref.reset h s = Ok () s) ∧
  (∀ s', Ref.reset h s = Ok () s' → (Ref.reset h;; Ref.reset h) s = Ok () s').
Proof.
  split_and!.
  - intros a c Hh Ha. rewrite (reset_bound s h a c) by done.
    eexists. split; [reflexivity|].
    destruct (Z.eqb_spec (u32_wrap (c - 1)) 0) as [Hz|Hz]; simpl.
    + split_and!; try done. apply delete_insert_eq.
    + done.
  - intros Hh [c Hc]. rewrite reset_void by done. by rewrite (touch_id s c).
  - intros s' Hreset. rewrite bind_unfold, Hreset. by eapply reset_twice.
Qed.

Lemma reset_contract_witness :
  let s := final [ConstructFrom 1 (Heap 7)]%positive (fresh_object 7) in
  ∃ s', Ref.reset 1%positive s = Ok () s' ∧
        refs s' = <[1%positive:=SentinelAddr]> (refs s) ∧
        sentinel_ s' = Some (u32_wrap (1 + 1)) ∧
        heap s' = delete 7%positive (heap s) ∧ freed s' = freed s ++ [7%positive].
Proof.
  intros s.
  destruct (proj1 (reset_contract s 1%positive) 7%positive 1)
    as (s' & Hreset & Hrefs & Hsent & Hheap).
  - vm_compute. reflexivity.
  - vm_compute. reflexivity.
  - exists s'. split; [exact Hreset|]. split; [exact Hrefs|]. split; [exact Hsent|].
    exact Hheap.
Defined.

(** ** C8 *)

(** C8 (as amended).  For a new handle [h]: constructing it from the
    address of a live heap object [a] with count [c] returns, the handle
    holds [a] and tests as bound, the count of [a] is [c + 1] modulo
    [2^32], and nothing else changes; constructing it from the null pointer
    aborts at [require_]; [ref] is the same function. *)
Theorem construct_from_object (s : state) (h : name) :
  refs s !! h = None →
  (∀ a c, heap s !! a = Some c →
     let s' := State (<[a:=u32_wrap (c + 1)]> (heap s)) (sentinel_ s)
                     (<[h:=Heap a]> (refs s)) (freed s) in
     Ref.ctor_object h (Heap a) s = Ok () s' ∧
     Ref.operator_bool h s' = Ok true (touch s')) ∧
  Ref.ctor_object h Null s = Fatal PreconditionViolation (bound s h Null) ∧
  (∀ o, ref h o s = Ref.ctor_object h o s).
Proof.
  intros Hh. split_and!.
  - intros a c Ha s'. split.
    + rewrite ctor_object_spec by done. simpl. by rewrite Ha.
    + unfold Ref.operator_bool.
      erewrite bind_Ok
        by (unfold load_object_, s'; simpl; rewrite lookup_insert_eq; reflexivity).
      by rewrite isNotSentinel_spec.
  - by rewrite ctor_object_spec.
  - reflexivity.
Qed.

Lemma construct_from_object_witness :
  let s := fresh_object 7 in
  (∀ a c, heap s !! a = Some c →
     let s' := State (<[a:=u32_wrap (c + 1)]> (heap s)) (sentinel_ s)
                     (<[1%positive:=Heap a]> (refs s)) (freed s) in
     Ref.ctor_object 1%positive (Heap a) s = Ok () s' ∧
     Ref.operator_bool 1%positive s' = Ok true (touch s')) ∧
  Ref.ctor_object 1%positive Null s
    = Fatal PreconditionViolation (bound s 1%positive Null) ∧
  (∀ o, ref 1%positive o s = Ref.ctor_object 1%positive o s).
Proof.
  intros s. apply (construct_from_object s 1%positive).
  vm_compute. reflexivity.
Defined.

(** C8 (counterexample).  The pointer that [_get] returns for a void
    handle is not null.  A handle constructed from it passes [require_],
    and tests as void, not as bound. *)
Lemma construct_from_sentinel_pointer :
  let s := final [DefaultConstruct 1]%positive (fresh_object 7) in
  Ref._get 1%positive s = Ok SentinelAddr s ∧
  SentinelAddr ≠ Null ∧
  ∃ s', Ref.ctor_object 2%positive SentinelAddr s = Ok () s' ∧
        refs s' !! 2%positive = Some SentinelAddr ∧
        Ref.operator_bool 2%positive s' = Ok false s'.
Proof.
  intros s. split_and!.
  - vm_compute. reflexivity.
  - discriminate.
  - exists (final [ConstructFrom 2 SentinelAddr]%positive s). split_and!.
    + vm_compute. reflexivity.
    + vm_compute. reflexivity.
    + vm_compute. reflexivity.
Qed.

(** ** C9 *)

(** C9.  The copy constructor of [ReferenceCounted] gives the new object
    the count [0], whatever the count of the object it copies from, which
    it leaves as it is; the assignment operator changes nothing, so the
    count of the assigned-to object stays. *)
Theorem object_copies_do_not_copy_the_count
    (s : state) (a : addr) (this other : ptr) (c_this c_other : Z) :
  rc s this = Some c_this → rc s other = Some c_other → heap s !! a = None →
  (∃ s', ReferenceCounted.copy_ctor a other s = Ok () s' ∧
         ReferenceCounted.refCount (Heap a) s' = Ok 0 s' ∧
         ReferenceCounted.refCount other s' = Ok c_other s') ∧
  ReferenceCounted.operator_assign this other s = Ok this s ∧
  ReferenceCounted.refCount this s = Ok c_this s.
Proof.
  intros Hthis Hother Ha. split_and!.
  - unfold ReferenceCounted.copy_ctor, ReferenceCounted.ctor. rewrite Hother, Ha.
    eexists. split; [reflexivity|].
    unfold ReferenceCounted.refCount, load_rc. split.
    + simpl. by rewrite lookup_insert_eq.
    + destruct other as [| |b]; simpl in *; [done|by rewrite Hother|].
      rewrite lookup_insert_ne by congruence. by rewrite Hother.
  - unfold ReferenceCounted.operator_assign. by rewrite Hthis, Hother.
  - unfold ReferenceCounted.refCount, load_rc. by rewrite Hthis.
Qed.

Lemma object_copies_do_not_copy_the_count_witness :
  let s := final [ConstructFrom 1 (Heap 7); CopyConstruct 2 1]%positive (fresh_object 7) in
  (∃ s', ReferenceCounted.copy_ctor 8%positive (Heap 7) s = Ok () s' ∧
         ReferenceCounted.refCount (Heap 8) s' = Ok 0 s' ∧
         ReferenceCounted.refCount (Heap 7) s' = Ok 2 s') ∧
  ReferenceCounted.operator_assign (Heap 7) (Heap 7) s = Ok (Heap 7) s ∧
  ReferenceCounted.refCount (Heap 7) s = Ok 2 s.
Proof.
  intros s.
  apply (object_copies_do_not_copy_the_count s 8%positive (Heap 7) (Heap 7) 2 2).
  - vm_compute. reflexivity.
  - vm_compute. reflexivity.
  - vm_compute. reflexivity.
Defined.

(** ** C10 *)

(** C10.  For a void handle [h] (the sentinel exists), [_get] returns the
    address of the sentinel where [get] returns null; and a new handle
    constructed from that address is constructed without a failure of
    [require_], raises the count of the sentinel, and tests as void. *)
Theorem raw_pointer_of_void_handle (s : state) (h h' : name) (c : Z) :
  refs s !! h = Some SentinelAddr → sentinel_ s = Some c → refs s !! h' = None →
  Ref._get h s = Ok SentinelAddr s ∧
  Ref.get h s = Ok Null s ∧
  let s' := State (heap s) (Some (u32_wrap (c + 1)))
                  (<[h':=SentinelAddr]> (refs s)) (freed s) in
  Ref.ctor_object h' SentinelAddr s = Ok () s' ∧
  Ref.operator_bool h' s' = Ok false s' ∧
  Ref.operator_not h' s' = Ok true s'.
Proof.
  intros Hh Hc Hh'. split_and!.
  - unfold Ref._get, load_object_. by rewrite Hh.
  - unfold Ref.get.
    erewrite bind_Ok by (unfold load_object_; rewrite Hh; reflexivity).
    erewrite bind_Ok by apply isNotSentinel_spec.
    by rewrite (touch_id s c Hc).
  - intros s'. split_and!.
    + rewrite ctor_object_spec by done. simpl. by rewrite Hc.
    + unfold Ref.operator_bool.
      erewrite bind_Ok
        by (unfold load_object_; simpl; rewrite lookup_insert_eq; reflexivity).
      by rewrite isNotSentinel_spec.
    + unfold Ref.operator_not.
      erewrite bind_Ok
        by (unfold load_object_; simpl; rewrite lookup_insert_eq; reflexivity).
      by rewrite isSentinel_spec.
Qed.

Lemma raw_pointer_of_void_handle_witness :
  let s := final [DefaultConstruct 1]%positive (fresh_object 7) in
  Ref._get 1%positive s = Ok SentinelAddr s ∧
  Ref.get 1%positive s = Ok Null s ∧
  let s' := State (heap s) (Some (u32_wrap (2 + 1)))
                  (<[2%positive:=SentinelAddr]> (refs s)) (freed s) in
  Ref.ctor_object 2%positive SentinelAddr s = Ok () s' ∧
  Ref.operator_bool 2%positive s' = Ok false s' ∧
  Ref.operator_not 2%positive s' = Ok true s'.
Proof.
  intros s. apply (raw_pointer_of_void_handle s 1%positive 2%positive 2).
  - vm_compute. reflexivity.
  - vm_compute. reflexivity.
  - vm_compute. reflexivity.
Defined.

(** * Further properties of the handles *)

(** ** The member templates *)

(** The member templates of [Ref<T>] over a second handle type [Ref<S>].
    They read the other handle through [_get()].  Types are erased here: a
    pointer stands for the object it points to, whatever the static type
    it is seen at. *)
Module Ref_S.

(** [template<class S> Ref(const Ref<S> &r) : object_(r._get())] *)
Definition ctor_copy (this r : name) : M unit :=
  p ← Ref._get r;
  init_object_ this p;;
  incr p;;
  ret ().

(** [template<class S> Ref &operator=(const Ref<S> &rhs)] *)
Definition operator_assign (this rhs : name) : M unit :=
  o ← Ref._get rhs;
  Ref.set this o.

(** [template<class S> bool operator==(const Ref<S> &r) const] *)
Definition operator_eq (this r : name) : M bool :=
  p ← load_object_ this; q ← Ref._get r; ret (bool_decide (p = q)).

(** [template<class S> bool operator!=(const Ref<S> &r) const] *)
Definition operator_ne (this r : name) : M bool :=
  p ← load_object_ this; q ← Ref._get r; ret (bool_decide (p ≠ q)).

End Ref_S.

(** [ref] when the compiler does not elide the copy of the returned
    temporary: the temporary [tmp] is constructed from [o], the result is
    copy-constructed from it, and the temporary is destroyed. *)
Definition ref_by_copy (tmp result : name) (o : ptr) : M unit :=
  Ref.ctor_object tmp o;;
  Ref.ctor_copy result tmp;;
  Ref.dtor tmp.

(** ** What the observers compute *)

Lemma operator_eq_spec s a b p q :
  refs s !! a = Some p → refs s !! b = Some q →
  Ref.operator_eq a b s = Ok (bool_decide (p = q)) s.
Proof.
  intros Ha Hb. unfold Ref.operator_eq.
  erewrite bind_Ok by (unfold load_object_; rewrite Ha; reflexivity).
  erewrite bind_Ok by (unfold load_object_; rewrite Hb; reflexivity).
  reflexivity.
Qed.

Lemma operator_ne_spec s a b p q :
  refs s !! a = Some p → refs s !! b = Some q →
  Ref.operator_ne a b s = Ok (bool_decide (p ≠ q)) s.
Proof.
  intros Ha Hb. unfold Ref.operator_ne.
  erewrite bind_Ok by (unfold load_object_; rewrite Ha; reflexivity).
  erewrite bind_Ok by (unfold load_object_; rewrite Hb; reflexivity).
  reflexivity.
Qed.

Lemma operator_bool_spec s h p :
  refs s !! h = Some p →
  Ref.operator_bool h s = Ok (bool_decide (p ≠ SentinelAddr)) (touch s).
Proof.
  intros Hh. unfold Ref.operator_bool.
  erewrite bind_Ok by (unfold load_object_; rewrite Hh; reflexivity).
  apply isNotSentinel_spec.
Qed.

Lemma operator_not_spec s h p :
  refs s !! h = Some p →
  Ref.operator_not h s = Ok (bool_decide (p = SentinelAddr)) (touch s).
Proof.
  intros Hh. unfold Ref.operator_not.
  erewrite bind_Ok by (unfold load_object_; rewrite Hh; reflexivity).
  apply isSentinel_spec.
Qed.

Lemma get_spec s h p :
  refs s !! h = Some p →
  Ref.get h s = Ok (if bool_decide (p ≠ SentinelAddr) then p else Null) (touch s).
Proof.
  intros Hh. unfold Ref.get.
  erewrite bind_Ok by (unfold load_object_; rewrite Hh; reflexivity).
  erewrite bind_Ok by apply isNotSentinel_spec.
  reflexivity.
Qed.

Lemma touch_consistent_void s h :
  consistent s → refs s !! h = Some SentinelAddr → touch s = s.
Proof.
  intros Hs Hh. destruct (targets_ok s Hs h _ Hh) as [c Hc]. by apply (touch_id s c).
Qed.

(** ** X1: copy construction *)

(** X1.  Copy construction from a live handle [r] on [p] returns; the new
    handle holds [p] and compares equal to [r], which still holds [p]; the
    count of [p] went up by one (in [u32]) and no other count moved. *)
Theorem copy_construction_shares (s : state) (h r : name) (p : ptr) (c : Z) :
  refs s !! r = Some p → refs s !! h = None → rc s p = Some c →
  ∃ s', Ref.ctor_copy h r s = Ok () s' ∧
        refs s' !! h = Some p ∧ refs s' !! r = Some p ∧
        Ref.operator_eq h r s' = Ok true s' ∧
        Ref.operator_ne h r s' = Ok false s' ∧
        rc s' p = Some (u32_wrap (c + 1)) ∧
        (∀ q, q ≠ p → rc s' q = rc s q) ∧
        (∀ g, g ≠ h → refs s' !! g = refs s !! g).
Proof.
  intros Hr Hh Hp. rewrite (ctor_copy_spec s h r p c) by done.
  eexists. split; [reflexivity|].
  assert (h ≠ r) as Hne by congruence.
  assert (rc (bound s h p) p = Some c) as Hp' by (by rewrite rc_bound).
  assert (refs (set_rc (bound s h p) p (u32_wrap (c + 1))) !! h = Some p) as Hh'.
  { rewrite refs_set_rc. apply lookup_insert_eq. }
  assert (refs (set_rc (bound s h p) p (u32_wrap (c + 1))) !! r = Some p) as Hr'.
  { rewrite refs_set_rc. simpl. by rewrite lookup_insert_ne. }
  split_and!; try done.
  - rewrite (operator_eq_spec _ h r p p) by done. by rewrite bool_decide_true.
  - rewrite (operator_ne_spec _ h r p p) by done.
    by rewrite bool_decide_false by (intros ?; done).
  - by eapply rc_set_rc_eq.
  - intros q Hq. by rewrite rc_set_rc_ne, rc_bound.
  - intros g Hg. rewrite refs_set_rc. simpl. by rewrite lookup_insert_ne.
Qed.

Lemma copy_construction_shares_witness :
  let s := final [ConstructFrom 1 (Heap 7)]%positive (fresh_object 7) in
  ∃ s', Ref.ctor_copy 2%positive 1%positive s = Ok () s' ∧
        refs s' !! 2%positive = Some (Heap 7) ∧ refs s' !! 1%positive = Some (Heap 7) ∧
        Ref.operator_eq 2%positive 1%positive s' = Ok true s' ∧
        Ref.operator_ne 2%positive 1%positive s' = Ok false s' ∧
        rc s' (Heap 7) = Some (u32_wrap (1 + 1)) ∧
        (∀ q, q ≠ Heap 7 → rc s' q = rc s q) ∧
        (∀ g, g ≠ 2%positive → refs s' !! g = refs s !! g).
Proof.
  intros s. apply (copy_construction_shares s 2%positive 1%positive (Heap 7) 1).
  - vm_compute. reflexivity.
  - vm_compute. reflexivity.
  - vm_compute. reflexivity.
Defined.

(** ** X2: default construction *)

(** X2.  Default construction of a new handle returns; the handle tests as
    void, [get] gives null for it, it compares unequal to every handle
    bound to a heap object and equal to every void handle. *)
Theorem default_handle_is_void (s : state) (h : name) :
  refs s !! h = None →
  ∃ s', Ref.ctor_default h s = Ok () s' ∧
        Ref.operator_bool h s' = Ok false s' ∧
        Ref.operator_not h s' = Ok true s' ∧
        Ref.get h s' = Ok Null s' ∧
        (∀ g a, refs s !! g = Some (Heap a) →
                Ref.operator_eq h g s' = Ok false s' ∧
                Ref.operator_ne h g s' = Ok true s') ∧
        (∀ g, refs s !! g = Some SentinelAddr →
              Ref.operator_eq h g s' = Ok true s').
Proof.
  intros Hh. rewrite ctor_default_spec by done.
  set (s' := set_rc _ _ _). exists s'. split; [reflexivity|].
  assert (refs s' !! h = Some SentinelAddr) as Hh' by apply lookup_insert_eq.
  assert (touch s' = s') as Ht by reflexivity.
  assert (∀ g p, refs s !! g = Some p → refs s' !! g = Some p) as Hother.
  { intros g p Hg. unfold s'. simpl. rewrite lookup_insert_ne; [done|congruence]. }
  split_and!.
  - by rewrite (operator_bool_spec s' h SentinelAddr), Ht.
  - by rewrite (operator_not_spec s' h SentinelAddr), Ht.
  - by rewrite (get_spec s' h SentinelAddr), Ht.
  - intros g a Hg. split.
    + by rewrite (operator_eq_spec s' h g SentinelAddr (Heap a)) by auto.
    + by rewrite (operator_ne_spec s' h g SentinelAddr (Heap a)) by auto.
  - intros g Hg. by rewrite (operator_eq_spec s' h g SentinelAddr SentinelAddr) by auto.
Qed.

Lemma default_handle_is_void_witness :
  let s := final [ConstructFrom 1 (Heap 7)]%positive (fresh_object 7) in
  ∃ s', Ref.ctor_default 2%positive s = Ok () s' ∧
        Ref.operator_bool 2%positive s' = Ok false s' ∧
        Ref.operator_not 2%positive s' = Ok true s' ∧
        Ref.get 2%positive s' = Ok Null s' ∧
        (∀ g a, refs s !! g = Some (Heap a) →
                Ref.operator_eq 2%positive g s' = Ok false s' ∧
                Ref.operator_ne 2%positive g s' = Ok true s') ∧
        (∀ g, refs s !! g = Some SentinelAddr →
              Ref.operator_eq 2%positive g s' = Ok true s').
Proof.
  intros s. apply (default_handle_is_void s 2%positive).
  vm_compute. reflexivity.
Defined.

(** ** X3: comparison of handles *)

(** X3.  On live handles [==] is the identity of the pointers held: it is
    reflexive, symmetric and transitive, [!=] is its negation, and neither
    changes the state. *)
Theorem handle_equality_is_identity (s : state) (a b c : name) (p q r : ptr) :
  refs s !! a = Some p → refs s !! b = Some q → refs s !! c = Some r →
  ∃ e, Ref.operator_eq a b s = Ok e s ∧
       Ref.operator_ne a b s = Ok (negb e) s ∧
       Ref.operator_eq b a s = Ok e s ∧
       (e = true ↔ p = q) ∧
       Ref.operator_eq a a s = Ok true s ∧
       (e = true → Ref.operator_eq b c s = Ok true s →
        Ref.operator_eq a c s = Ok true s).
Proof.
  intros Ha Hb Hc. exists (bool_decide (p = q)). split_and!.
  - by apply operator_eq_spec.
  - rewrite (operator_ne_spec s a b p q) by done. f_equal.
    by repeat case_bool_decide.
  - rewrite (operator_eq_spec s b a q p) by done. f_equal.
    apply bool_decide_ext. split; congruence.
  - apply bool_decide_eq_true.
  - rewrite (operator_eq_spec s a a p p) by done. by rewrite bool_decide_true.
  - intros ->%bool_decide_eq_true.
    rewrite (operator_eq_spec s b c q r), (operator_eq_spec s a c q r) by done.
    done.
Qed.

Lemma handle_equality_is_identity_witness :
  let s := final [ConstructFrom 1 (Heap 7); CopyConstruct 2 1; DefaultConstruct 3]%positive
             (fresh_object 7) in
  ∃ e, Ref.operator_eq 1%positive 2%positive s = Ok e s ∧
       Ref.operator_ne 1%positive 2%positive s = Ok (negb e) s ∧
       Ref.operator_eq 2%positive 1%positive s = Ok e s ∧
       (e = true ↔ Heap 7 = Heap 7) ∧
       Ref.operator_eq 1%positive 1%positive s = Ok true s ∧
       (e = true → Ref.operator_eq 2%positive 3%positive s = Ok true s →
        Ref.operator_eq 1%positive 3%positive s = Ok true s).
Proof.
  intros s.
  apply (handle_equality_is_identity s 1%positive 2%positive 3%positive
           (Heap 7) (Heap 7) SentinelAddr).
  - vm_compute. reflexivity.
  - vm_compute. reflexivity.
  - vm_compute. reflexivity.
Defined.

(** ** X4: the test for voidness and [get] *)

(** X4.  In a consistent state, for a live handle: [operator bool] and
    [operator!] are each other's negation; the handle tests true exactly
    when it holds a heap object, and exactly then [get] returns a pointer
    other than null, namely the one [_get] returns.  The observers change
    no count and no handle (at most they construct the sentinel), and for
    a void handle they leave the state as it is. *)
Theorem truth_test_agrees_with_get (s : state) (h : name) (p : ptr) :
  consistent s → refs s !! h = Some p →
  ∃ b raw, Ref.operator_bool h s = Ok b (touch s) ∧
           Ref.operator_not h s = Ok (negb b) (touch s) ∧
           Ref.get h s = Ok raw (touch s) ∧
           Ref._get h s = Ok p s ∧
           (b = true ↔ ∃ a, p = Heap a) ∧
           (b = true ↔ raw ≠ Null) ∧
           (b = true → raw = p) ∧
           (b = false → touch s = s).
Proof.
  intros Hs Hh. destruct (targets_ok s Hs h p Hh) as [c Hc].
  exists (bool_decide (p ≠ SentinelAddr)),
         (if bool_decide (p ≠ SentinelAddr) then p else Null).
  split_and!.
  - by apply operator_bool_spec.
  - rewrite (operator_not_spec s h p) by done. f_equal.
    by repeat case_bool_decide.
  - by apply get_spec.
  - unfold Ref._get, load_object_. by rewrite Hh.
  - rewrite bool_decide_eq_true. destruct p as [| |a]; simpl in Hc; [done| |].
    + split; [done|]. by intros [a ?].
    + split; [by eauto|done].
  - destruct p as [| |a]; simpl in Hc; [done| |].
    + by rewrite bool_decide_false by auto.
    + by rewrite bool_decide_true by auto.
  - by intros ->.
  - intros Hb%bool_decide_eq_false. apply dec_stable in Hb. subst p.
    by eapply touch_consistent_void.
Qed.

Lemma truth_test_agrees_with_get_witness :
  let s := final [ConstructFrom 1 (Heap 7)]%positive (fresh_object 7) in
  ∃ b raw, Ref.operator_bool 1%positive s = Ok b (touch s) ∧
           Ref.operator_not 1%positive s = Ok (negb b) (touch s) ∧
           Ref.get 1%positive s = Ok raw (touch s) ∧
           Ref._get 1%positive s = Ok (Heap 7) s ∧
           (b = true ↔ ∃ a, Heap 7 = Heap a) ∧
           (b = true ↔ raw ≠ Null) ∧
           (b = true → raw = Heap 7) ∧
           (b = false → touch s = s).
Proof.
  intros s.
  apply (truth_test_agrees_with_get s 1%positive (Heap 7)).
  - exact (ctor_object_good (fresh_object 7) 1%positive (Heap 7)
             (consistent_fresh_object 7)).
  - vm_compute. reflexivity.
Defined.

(** ** X5: [ref] with and without copy elision *)

(** X5.  For a pointer to an existing object whose count is below
    [2^32 - 1], [ref] leaves the same state whether the returned temporary
    is elided or is constructed, copied into the result and destroyed. *)
Theorem ref_does_not_depend_on_elision
    (s : state) (tmp result : name) (o : ptr) (c : Z) :
  refs s !! tmp = None → refs s !! result = None → tmp ≠ result →
  rc s o = Some c → 0 ≤ c → c + 1 < u32_modulus →
  ∃ s', ref result o s = Ok () s' ∧ ref_by_copy tmp result o s = Ok () s'.
Proof.
  intros Htmp Hres Hne Ho Hc0 Hc1.
  assert (o ≠ Null) as Hnn by (by destruct o).
  assert (u32_wrap (c + 1) = c + 1) as Hw1 by u32_lia.
  unfold ref, ref_by_copy.
  rewrite (ctor_object_spec s result o Hres), Ho.
  rewrite (bind_unfold (Ref.ctor_object tmp o)), (ctor_object_spec s tmp o Htmp), Ho.
  destruct o as [| |a]; [done| |].
  - eexists. split; [reflexivity|]. rewrite Hw1.
    set (s1 := set_rc (bound s tmp SentinelAddr) SentinelAddr (c + 1)).
    rewrite (bind_unfold (Ref.ctor_copy result tmp)).
    rewrite (ctor_copy_spec s1 result tmp SentinelAddr (c + 1));
      [|apply lookup_insert_eq|by (simpl; rewrite lookup_insert_ne)|reflexivity].
    set (s2 := set_rc (bound s1 result SentinelAddr) SentinelAddr (u32_wrap (c + 1 + 1))).
    rewrite (dtor_spec s2 tmp SentinelAddr (u32_wrap (c + 1 + 1)));
      [|by (simpl; rewrite lookup_insert_ne by done; apply lookup_insert_eq)|reflexivity].
    replace (u32_wrap (u32_wrap (c + 1 + 1) - 1)) with (c + 1) by u32_lia.
    unfold released. destruct (Z.eqb_spec (c + 1) 0) as [?|_]; [lia|].
    f_equal. unfold unbound, bound, s2, s1; simpl. f_equal.
    rewrite delete_insert_ne, delete_insert_eq by done. by rewrite delete_id.
  - simpl in Ho. eexists. split; [reflexivity|]. rewrite Hw1.
    set (s1 := set_rc (bound s tmp (Heap a)) (Heap a) (c + 1)).
    rewrite (bind_unfold (Ref.ctor_copy result tmp)).
    rewrite (ctor_copy_spec s1 result tmp (Heap a) (c + 1));
      [|apply lookup_insert_eq|by (simpl; rewrite lookup_insert_ne)
       |by (simpl; apply lookup_insert_eq)].
    set (s2 := set_rc (bound s1 result (Heap a)) (Heap a) (u32_wrap (c + 1 + 1))).
    rewrite (dtor_spec s2 tmp (Heap a) (u32_wrap (c + 1 + 1)));
      [|by (simpl; rewrite lookup_insert_ne by done; apply lookup_insert_eq)
       |by (simpl; apply lookup_insert_eq)].
    replace (u32_wrap (u32_wrap (c + 1 + 1) - 1)) with (c + 1) by u32_lia.
    unfold released. destruct (Z.eqb_spec (c + 1) 0) as [?|_]; [lia|].
    f_equal. unfold unbound, bound, s2, s1; simpl. f_equal.
    + by rewrite !insert_insert_eq.
    + rewrite delete_insert_ne, delete_insert_eq by done. by rewrite delete_id.
Qed.

Lemma ref_does_not_depend_on_elision_witness :
  ∃ s', ref 2%positive (Heap 7) (fresh_object 7) = Ok () s' ∧
        ref_by_copy 1%positive 2%positive (Heap 7) (fresh_object 7) = Ok () s'.
Proof.
  apply (ref_does_not_depend_on_elision (fresh_object 7) 1%positive 2%positive (Heap 7) 0).
  - vm_compute. reflexivity.
  - vm_compute. reflexivity.
  - discriminate.
  - vm_compute. reflexivity.
  - lia.
  - unfold u32_modulus. lia.
Defined.

(** ** X6: temporaries *)

(** X6.  A temporary handle leaves no trace.  Copy-constructing a new
    handle from a live one whose target has a count in [1, 2^32) and
    destroying it again ends in the state it started in.  So does
    default-constructing and destroying a handle when the sentinel exists
    with such a count; when the sentinel does not exist yet, the only
    trace is the sentinel, constructed with the count [1]. *)
Theorem temporary_handle_leaves_no_trace (s : state) (h : name) :
  refs s !! h = None →
  (∀ r p c, refs s !! r = Some p → rc s p = Some c → 0 < c < u32_modulus →
            (Ref.ctor_copy h r;; Ref.dtor h) s = Ok () s) ∧
  (∀ c, sentinel_ s = Some c → 0 < c < u32_modulus →
        (Ref.ctor_default h;; Ref.dtor h) s = Ok () s) ∧
  (sentinel_ s = None →
   (Ref.ctor_default h;; Ref.dtor h) s
     = Ok () (State (heap s) (Some 1) (refs s) (freed s))).
Proof.
  intros Hh.
  assert (∀ s0 p c, refs s0 !! h = None → rc s0 p = Some c → 0 < c < u32_modulus →
            Ref.dtor h (set_rc (bound s0 h p) p (u32_wrap (c + 1))) = Ok () s0) as Hback.
  { intros s0 p c Hh0 Hp Hc.
    rewrite (dtor_spec _ h p (u32_wrap (c + 1)));
      [|rewrite refs_set_rc; apply lookup_insert_eq
       |by eapply rc_set_rc_eq; rewrite rc_bound].
    replace (u32_wrap (u32_wrap (c + 1) - 1)) with c by u32_lia.
    unfold released. destruct (Z.eqb_spec c 0) as [?|_]; [lia|]. f_equal.
    destruct s0 as [hp z m l], p as [| |a]; simpl in *; [done| |];
      unfold unbound, bound; simpl; f_equal;
      rewrite ?insert_insert_eq, ?delete_insert_eq, ?delete_id; try done.
    by apply insert_id. }
  split_and!.
  - intros r p c Hr Hp Hc. rewrite bind_unfold.
    rewrite (ctor_copy_spec s h r p c) by done. by apply Hback.
  - intros c Hs Hc. rewrite bind_unfold, ctor_default_spec by done.
    rewrite (touch_id s c Hs), Hs. simpl. by apply (Hback s SentinelAddr c).
  - intros Hs. rewrite bind_unfold, ctor_default_spec by done. rewrite Hs. simpl.
    apply (Hback (State (heap s) (Some 1) (refs s) (freed s)) SentinelAddr 1);
      [done..|unfold u32_modulus; lia].
Qed.

Lemma temporary_handle_leaves_no_trace_witness :
  let s := final [ConstructFrom 1 (Heap 7)]%positive (fresh_object 7) in
  (Ref.ctor_copy 2%positive 1%positive;; Ref.dtor 2%positive) s = Ok () s.
Proof.
  intros s.
  apply (proj1 (temporary_handle_leaves_no_trace s 2%positive eq_refl)
           1%positive (Heap 7) 1).
  - vm_compute. reflexivity.
  - vm_compute. reflexivity.
  - unfold u32_modulus. lia.
Defined.

(** ** X7: assignment makes equal, once is enough *)

Lemma operator_assign_refs s h rhs old o s' :
  consistent s → within_u32 s →
  refs s !! h = Some old → refs s !! rhs = Some o →
  Ref.operator_assign h rhs s = Ok () s' →
  refs s' = <[h:=o]> (refs s).
Proof.
  intros Hs Hlim Hh Hr. unfold Ref.operator_assign.
  erewrite bind_Ok by (unfold load_object_; rewrite Hr; reflexivity).
  destruct (targets_ok s Hs rhs o Hr) as [co Ho].
  destruct (targets_ok s Hs h old Hh) as [cold Hold].
  destruct (decide (o = old)) as [<-|Hne].
  - rewrite (set_same_target s h o co); [|done..|].
    + intros [= <-]. symmetry. by apply insert_id.
    + pose proof (consistent_exact s o co Hs Hlim Ho).
      pose proof (expected_owner_pos _ _ _ Hh). specialize (Hlim o). lia.
  - rewrite (set_spec s h old o co cold)
      by (done || by rewrite rc_set_rc_ne, rc_bound).
    intros Hrel. rewrite (released_refs _ _ _ _ Hrel). by rewrite !refs_set_rc.
Qed.

(** X7.  From a consistent state within the limit, an assignment
    [h = rhs] between live handles returns.  Afterwards [h] holds what
    [rhs] holds, [rhs] and every other handle hold what they held, the two
    compare equal, and (the new state being within the limit too) the same
    assignment once more changes nothing. *)
Theorem assignment_makes_equal (s : state) (h rhs : name) (old o : ptr) :
  consistent s → within_u32 s →
  refs s !! h = Some old → refs s !! rhs = Some o →
  ∃ s', Ref.operator_assign h rhs s = Ok () s' ∧
        refs s' = <[h:=o]> (refs s) ∧
        Ref.operator_eq h rhs s' = Ok true s' ∧
        (within_u32 s' → Ref.operator_assign h rhs s' = Ok () s').
Proof.
  intros Hs Hlim Hh Hr.
  assert (legal_op s (Assign h rhs) = true) as Hlegal.
  { simpl. rewrite !bool_decide_true by eauto. done. }
  destruct (step_returns (Assign h rhs) s Hs Hlim Hlegal) as [s' Hrun]. simpl in Hrun.
  pose proof (operator_assign_good s h rhs Hs Hlim) as Hs'.
  rewrite Hrun in Hs'. simpl in Hs'.
  pose proof (operator_assign_refs s h rhs old o s' Hs Hlim Hh Hr Hrun) as Hrefs.
  assert (refs s' !! h = Some o) as Hh' by (rewrite Hrefs; apply lookup_insert_eq).
  assert (refs s' !! rhs = Some o) as Hr'.
  { rewrite Hrefs. destruct (decide (h = rhs)) as [->|Hne].
    - apply lookup_insert_eq.
    - by rewrite lookup_insert_ne. }
  exists s'. split_and!; try done.
  - rewrite (operator_eq_spec s' h rhs o o) by done. by rewrite bool_decide_true.
  - intros Hlim'. destruct (targets_ok s' Hs' h o Hh') as [c Hc].
    unfold Ref.operator_assign.
    erewrite bind_Ok by (unfold load_object_; rewrite Hr'; reflexivity).
    apply (set_same_target s' h o c); [done..|].
    pose proof (consistent_exact s' o c Hs' Hlim' Hc).
    pose proof (expected_owner_pos _ _ _ Hh'). specialize (Hlim' o). lia.
Qed.

Lemma assignment_makes_equal_witness :
  let s := final [ConstructFrom 1 (Heap 7); DefaultConstruct 2]%positive (fresh_object 7) in
  ∃ s', Ref.operator_assign 2%positive 1%positive s = Ok () s' ∧
        refs s' = <[2%positive:=Heap 7]> (refs s) ∧
        Ref.operator_eq 2%positive 1%positive s' = Ok true s' ∧
        (within_u32 s' → Ref.operator_assign 2%positive 1%positive s' = Ok () s').
Proof.
  intros s.
  apply (assignment_makes_equal s 2%positive 1%positive SentinelAddr (Heap 7)).
  - assert (within_limit [ConstructFrom 1 (Heap 7); DefaultConstruct 2]%positive
              (fresh_object 7)) as Hlim
      by (apply fits_u32_within; vm_compute; reflexivity).
    exact (run_good _ _ (consistent_fresh_object 7) Hlim).
  - apply within_u32_by_size. vm_compute. reflexivity.
  - vm_compute. reflexivity.
  - vm_compute. reflexivity.
Defined.

(** ** X8: what the destructor does, by the count it finds *)

(** X8.  The destructor of a live handle on [p], whose count [c] is in
    [1, 2^32): above [1] it only decrements the count and ends the handle;
    at [1] on a heap object it deletes the object (the check on the way
    constructs the sentinel if need be); at [1] on the sentinel it aborts
    at [verify_]. *)
Theorem destructor_by_count (s : state) (h : name) (p : ptr) (c : Z) :
  refs s !! h = Some p → rc s p = Some c → 0 < c < u32_modulus →
  (1 < c → Ref.dtor h s = Ok () (unbound (set_rc s p (c - 1)) h)) ∧
  (∀ a, c = 1 → p = Heap a →
        Ref.dtor h s
          = Ok () (State (delete a (heap s)) (Some (default 1 (sentinel_ s)))
                         (delete h (refs s)) (freed s ++ [a]))) ∧
  (c = 1 → p = SentinelAddr →
   Ref.dtor h s = Fatal InvariantViolation (set_rc s p 0)).
Proof.
  intros Hh Hp Hc. rewrite (dtor_spec s h p c) by done. split_and!.
  - intros Hc1. replace (u32_wrap (c - 1)) with (c - 1) by u32_lia.
    unfold released. by destruct (Z.eqb_spec (c - 1) 0) as [?|_]; [lia|].
  - intros a -> ->. change (u32_wrap (1 - 1)) with 0. unfold released. simpl.
    f_equal. unfold unbound, deleted, touch; simpl. f_equal. apply delete_insert_eq.
  - intros -> ->. reflexivity.
Qed.

Lemma destructor_by_count_witness :
  let s := final [ConstructFrom 1 (Heap 7)]%positive (fresh_object 7) in
  Ref.dtor 1%positive s
    = Ok () (State (delete 7%positive (heap s)) (Some (default 1 (sentinel_ s)))
                   (delete 1%positive (refs s)) (freed s ++ [7%positive])).
Proof.
  intros s.
  apply (proj1 (proj2 (destructor_by_count s 1%positive (Heap 7) 1
                         eq_refl eq_refl (conj eq_refl eq_refl)))
           7%positive eq_refl eq_refl).
Defined.

(** ** X9: [reset] and the assignment of a void handle *)

(** X9.  In a consistent state within the limit, assigning a void handle
    to a live handle [h] is the same as [h.reset()]: same outcome, same
    state. *)
Theorem reset_is_assignment_of_void (s : state) (h v : name) (p : ptr) :
  consistent s → within_u32 s →
  refs s !! h = Some p → refs s !! v = Some SentinelAddr →
  Ref.operator_assign h v s = Ref.reset h s.
Proof.
  intros Hs Hlim Hh Hv.
  destruct (targets_ok s Hs v _ Hv) as [cs Hcs].
  destruct (targets_ok s Hs h p Hh) as [c Hc].
  pose proof (touch_id s cs Hcs) as Ht.
  unfold Ref.operator_assign.
  erewrite bind_Ok by (unfold load_object_; rewrite Hv; reflexivity).
  destruct p as [| |a]; simpl in Hc; [done| |].
  - rewrite reset_void, Ht by done.
    apply (set_same_target s h SentinelAddr cs); [done..|].
    pose proof (consistent_exact s SentinelAddr cs Hs Hlim Hcs).
    pose proof (expected_sentinel_pos (refs s)). specialize (Hlim SentinelAddr). lia.
  - rewrite (reset_bound s h a c) by done.
    rewrite (set_spec s h (Heap a) SentinelAddr cs c); [|done..].
    rewrite Ht. unfold released, voided.
    simpl in Hcs. destruct (u32_wrap (c - 1) =? 0) eqn:Hz.
    + apply Z.eqb_eq in Hz. rewrite Hz.
      unfold deleted, touch, bound, set_rc; simpl. rewrite Hcs. reflexivity.
    + unfold deleted, touch, bound, set_rc; simpl. rewrite Hcs. reflexivity.
Qed.

Lemma reset_is_assignment_of_void_witness :
  let s := final [ConstructFrom 1 (Heap 7); DefaultConstruct 2]%positive (fresh_object 7) in
  Ref.operator_assign 1%positive 2%positive s = Ref.reset 1%positive s.
Proof.
  intros s.
  apply (reset_is_assignment_of_void s 1%positive 2%positive (Heap 7)).
  - assert (within_limit [ConstructFrom 1 (Heap 7); DefaultConstruct 2]%positive
              (fresh_object 7)) as Hlim
      by (apply fits_u32_within; vm_compute; reflexivity).
    exact (run_good _ _ (consistent_fresh_object 7) Hlim).
  - apply within_u32_by_size. vm_compute. reflexivity.
  - vm_compute. reflexivity.
  - vm_compute. reflexivity.
Defined.

(** ** X10: no handle dangles, whatever the objects *)

(** X10.  From any consistent state, with any number of objects, a
    well-formed sequence of handle operations within the limit returns, and
    in the state it reaches: every handle points to an object that exists,
    whose count is positive and is the number of handles on it (one more
    for the sentinel); no object was deleted twice; and a deleted object is
    gone and no handle points to it. *)
Theorem handles_never_dangle (ops : list op) (s0 : state) :
  consistent s0 → within_limit ops s0 → legal ops s0 = true →
  ∃ s, run ops s0 = Ok () s ∧
       (∀ h p, refs s !! h = Some p →
               ∃ c, rc s p = Some c ∧ 0 < c ∧ c = expected (refs s) p) ∧
       (∀ a c, heap s !! a = Some c → c = Z.of_nat (owners (refs s) (Heap a))) ∧
       NoDup (freed s) ∧
       (∀ a, a ∈ freed s → heap s !! a = None ∧ ∀ h, refs s !! h ≠ Some (Heap a)).
Proof.
  intros Hs0 Hlim Hlegal.
  destruct (run_returns ops s0 Hs0 Hlim Hlegal) as [s Hrun].
  pose proof (run_good ops s0 Hs0 Hlim) as Hs. rewrite Hrun in Hs. simpl in Hs.
  pose proof (run_within_final ops s0 s Hlim Hrun) as Hw.
  exists s. split_and!; [done| | |by apply freed_nodup|].
  - intros h p Hh. destruct (targets_ok s Hs h p Hh) as [c Hc]. exists c.
    pose proof (consistent_exact s p c Hs Hw Hc).
    pose proof (expected_owner_pos _ _ _ Hh). split_and!; [done|lia|done].
  - intros a c Hc. rewrite (consistent_exact s (Heap a) c Hs Hw Hc).
    unfold expected. rewrite decide_False by done. lia.
  - intros a Ha. pose proof (freed_gone s Hs a Ha) as Hgone. simpl in Hgone.
    split; [done|]. intros h Hh.
    destruct (targets_ok s Hs h _ Hh) as [c Hc]. simpl in Hc. congruence.
Qed.

Lemma handles_never_dangle_witness :
  let ops := [ConstructFrom 1 (Heap 7); ConstructFrom 2 (Heap 8); Assign 1 2;
              DefaultConstruct 3; Reset 2; Destroy 1]%positive in
  let s0 := State {[7%positive := 0; 8%positive := 0]} None ∅ [] in
  consistent s0 ∧
  ∃ s, run ops s0 = Ok () s ∧
       (∀ h p, refs s !! h = Some p →
               ∃ c, rc s p = Some c ∧ 0 < c ∧ c = expected (refs s) p) ∧
       (∀ a c, heap s !! a = Some c → c = Z.of_nat (owners (refs s) (Heap a))) ∧
       NoDup (freed s) ∧
       (∀ a, a ∈ freed s → heap s !! a = None ∧ ∀ h, refs s !! h ≠ Some (Heap a)).
Proof.
  intros ops s0.
  assert (consistent s0) as Hs0.
  { split; simpl.
    - intros [| |a] c Hc; simpl in Hc; try done.
      unfold expected. rewrite owners_empty, decide_False by done.
      apply lookup_insert_Some in Hc as [[_ <-]|[_ Hc]]; [done|].
      by apply lookup_singleton_Some in Hc as [_ <-].
    - intros h p Hh. by rewrite lookup_empty in Hh.
    - constructor.
    - intros a Ha. by apply elem_of_nil in Ha. }
  split; [exact Hs0|].
  apply (handles_never_dangle ops s0 Hs0).
  - apply fits_u32_within. vm_compute. reflexivity.
  - vm_compute. reflexivity.
Defined.

(** ** X11: assignment between two objects *)

(** X11.  [h = rhs] when [h] holds the heap object [a], with a count [ca]
    in [1, 2^32), and [rhs] holds another heap object [b]: the count of [b]
    goes up by one (in [u32]), [h] holds [b], and [a] loses one count, or
    is deleted when [h] was its only owner.  Nothing else changes, except
    that the deletion constructs the sentinel if it did not exist. *)
Theorem assignment_moves_one_count
    (s : state) (h rhs : name) (a b : addr) (ca cb : Z) :
  refs s !! h = Some (Heap a) → refs s !! rhs = Some (Heap b) → a ≠ b →
  heap s !! a = Some ca → heap s !! b = Some cb → 0 < ca < u32_modulus →
  Ref.operator_assign h rhs s
    = Ok () (if ca =? 1
             then State (delete a (<[b:=u32_wrap (cb + 1)]> (heap s)))
                        (Some (default 1 (sentinel_ s)))
                        (<[h:=Heap b]> (refs s)) (freed s ++ [a])
             else State (<[a:=ca - 1]> (<[b:=u32_wrap (cb + 1)]> (heap s)))
                        (sentinel_ s) (<[h:=Heap b]> (refs s)) (freed s)).
Proof.
  intros Hh Hr Hab Ha Hb Hca. unfold Ref.operator_assign.
  erewrite bind_Ok by (unfold load_object_; rewrite Hr; reflexivity).
  rewrite (set_spec s h (Heap a) (Heap b) cb ca);
    [|done|done|by (simpl; rewrite lookup_insert_ne by done)].
  unfold released. destruct (Z.eqb_spec ca 1) as [->|Hne].
  - change (u32_wrap (1 - 1)) with 0. simpl.
    f_equal. unfold deleted, touch; simpl. f_equal. apply delete_insert_eq.
  - replace (u32_wrap (ca - 1)) with (ca - 1) by u32_lia.
    by destruct (Z.eqb_spec (ca - 1) 0) as [?|_]; [lia|].
Qed.

Lemma assignment_moves_one_count_witness :
  let s := final [ConstructFrom 1 (Heap 7); ConstructFrom 2 (Heap 8)]%positive
             (State {[7%positive := 0; 8%positive := 0]} None ∅ []) in
  Ref.operator_assign 1%positive 2%positive s
    = Ok () (State (delete 7%positive (<[8%positive:=u32_wrap (1 + 1)]> (heap s)))
                   (Some (default 1 (sentinel_ s)))
                   (<[1%positive:=Heap 8]> (refs s)) (freed s ++ [7%positive])).
Proof.
  intros s.
  apply (assignment_moves_one_count s 1%positive 2%positive 7%positive 8%positive 1 1).
  - vm_compute. reflexivity.
  - vm_compute. reflexivity.
  - discriminate.
  - vm_compute. reflexivity.
  - vm_compute. reflexivity.
  - unfold u32_modulus. lia.
Defined.

(** ** X12: a handle constructed from [get] *)

(** X12.  In a consistent state, a new handle constructed from [h.get()]:
    when [h] is bound this is the copy construction from [h] (after the
    call of [isNotSentinel] in [get]); when [h] is void, [get] gives null
    and the constructor aborts at [require_]. *)
Theorem constructing_from_get (s : state) (h h' : name) (p : ptr) :
  consistent s → refs s !! h = Some p → refs s !! h' = None →
  (∀ a, p = Heap a →
        (Ref.get h ≫= Ref.ctor_object h') s = Ref.ctor_copy h' h (touch s) ∧
        ∃ s', Ref.ctor_copy h' h (touch s) = Ok () s') ∧
  (p = SentinelAddr →
   (Ref.get h ≫= Ref.ctor_object h') s
     = Fatal PreconditionViolation (bound s h' Null)).
Proof.
  intros Hs Hh Hh'. split.
  - intros a ->. destruct (targets_ok s Hs h _ Hh) as [c Hc].
    erewrite bind_Ok by (by apply get_spec).
    rewrite bool_decide_true by done.
    rewrite (ctor_object_spec (touch s) h' (Heap a)) by done.
    rewrite (ctor_copy_spec (touch s) h' h (Heap a) c) by done.
    simpl in *. rewrite Hc. by eauto.
  - intros ->. erewrite bind_Ok by (by apply get_spec).
    rewrite bool_decide_false by (intros ?; done).
    rewrite (touch_consistent_void s h Hs Hh).
    by rewrite ctor_object_spec.
Qed.

Lemma constructing_from_get_witness :
  let s := final [ConstructFrom 1 (Heap 7)]%positive (fresh_object 7) in
  (Ref.get 1%positive ≫= Ref.ctor_object 2%positive) s
    = Ref.ctor_copy 2%positive 1%positive (touch s) ∧
  ∃ s', Ref.ctor_copy 2%positive 1%positive (touch s) = Ok () s'.
Proof.
  intros s.
  apply (proj1 (constructing_from_get s 1%positive 2%positive (Heap 7)
                  (ctor_object_good (fresh_object 7) 1%positive (Heap 7)
                     (consistent_fresh_object 7))
                  eq_refl eq_refl) 7%positive eq_refl).
Defined.

(** ** X13: [free] and the objects that handles own *)

(** X13.  In a consistent state within the limit, [free] on the target of
    a live handle, object or sentinel, aborts at [require_] and changes
    nothing: an object is never deleted under a handle. *)
Theorem free_refuses_owned_objects (s : state) (h : name) (p : ptr) :
  consistent s → within_u32 s → refs s !! h = Some p →
  ReferenceCounted.free p s = Fatal PreconditionViolation s.
Proof.
  intros Hs Hlim Hh. destruct (targets_ok s Hs h p Hh) as [c Hc].
  apply (free_nonzero s p c Hc). by eapply owned_nonzero.
Qed.

Lemma free_refuses_owned_objects_witness :
  let s := final [ConstructFrom 1 (Heap 7)]%positive (fresh_object 7) in
  ReferenceCounted.free (Heap 7) s = Fatal PreconditionViolation s.
Proof.
  intros s. apply (free_refuses_owned_objects s 1%positive (Heap 7)).
  - exact (ctor_object_good (fresh_object 7) 1%positive (Heap 7)
             (consistent_fresh_object 7)).
  - apply within_u32_by_size. vm_compute. reflexivity.
  - vm_compute. reflexivity.
Defined.

(** ** X14: an object that no handle ever owned *)

(** X14.  An object constructed at a free address has the count [0], is
    not the sentinel, and can be freed at once: the heap is then what it
    was, the deletion is logged, and the only other trace is the sentinel,
    which the check in [free] constructs if it did not exist. *)
Theorem unowned_object_can_be_freed (s : state) (a : addr) :
  heap s !! a = None →
  ∃ s1, ReferenceCounted.ctor a s = Ok () s1 ∧
        ReferenceCounted.refCount (Heap a) s1 = Ok 0 s1 ∧
        ReferenceCounted.isSentinel (Heap a) s1 = Ok false (touch s1) ∧
        ReferenceCounted.isNotSentinel (Heap a) s1 = Ok true (touch s1) ∧
        ReferenceCounted.free (Heap a) s1
          = Ok () (State (heap s) (Some (default 1 (sentinel_ s))) (refs s)
                         (freed s ++ [a])).
Proof.
  intros Ha. unfold ReferenceCounted.ctor. rewrite Ha.
  eexists. split; [reflexivity|]. split_and!.
  - unfold ReferenceCounted.refCount, load_rc. simpl. by rewrite lookup_insert_eq.
  - by rewrite isSentinel_spec.
  - by rewrite isNotSentinel_spec.
  - rewrite free_heap_zero by (simpl; apply lookup_insert_eq).
    unfold deleted, touch. simpl. do 2 f_equal.
    rewrite delete_insert_eq. by apply delete_id.
Qed.

Lemma unowned_object_can_be_freed_witness :
  let s := fresh_object 7 in
  ∃ s1, ReferenceCounted.ctor 8%positive s = Ok () s1 ∧
        ReferenceCounted.refCount (Heap 8) s1 = Ok 0 s1 ∧
        ReferenceCounted.isSentinel (Heap 8) s1 = Ok false (touch s1) ∧
        ReferenceCounted.isNotSentinel (Heap 8) s1 = Ok true (touch s1) ∧
        ReferenceCounted.free (Heap 8) s1
          = Ok () (State (heap s) (Some (default 1 (sentinel_ s))) (refs s)
                         (freed s ++ [8%positive])).
Proof.
  intros s. apply (unowned_object_can_be_freed s 8%positive).
  vm_compute. reflexivity.
Defined.

(** ** X15: handles are pointer variables *)

(** The handles after an operation that returned, by the rules of plain
    pointers: a constructor adds its handle, an assignment and [reset]
    retarget theirs, the destructor removes its own. *)
Definition refs_after (o : op) (m : gmap name ptr) : gmap name ptr :=
  match o with
  | DefaultConstruct h => <[h:=SentinelAddr]> m
  | ConstructFrom h p => <[h:=p]> m
  | CopyConstruct h r | Assign h r =>
      match m !! r with
      | Some p => <[h:=p]> m
      | None => m
      end
  | Reset h => <[h:=SentinelAddr]> m
  | Destroy h => delete h m
  end.

(** The handle an operation is applied to. *)
Definition subject (o : op) : name :=
  match o with
  | DefaultConstruct h | ConstructFrom h _ | CopyConstruct h _
  | Assign h _ | Reset h | Destroy h => h
  end.

Lemma bind_Ok_inv {A B} (m : M A) (k : A → M B) s y s' :
  (m ≫= k) s = Ok y s' → ∃ x s1, m s = Ok x s1 ∧ k x s1 = Ok y s'.
Proof. rewrite bind_unfold. destruct (m s) as [x s1| |]; [by eauto|done..]. Qed.

(** [keeps_refs m]: a call of [m] that returns leaves every handle as it
    was. *)
Definition keeps_refs {A} (m : M A) : Prop :=
  ∀ s x s', m s = Ok x s' → refs s' = refs s.

Lemma keeps_refs_bind {A B} (m : M A) (k : A → M B) :
  keeps_refs m → (∀ x, keeps_refs (k x)) → keeps_refs (m ≫= k).
Proof.
  intros Hm Hk s y s' (x & s1 & H1 & H2)%bind_Ok_inv.
  rewrite (Hk x _ _ _ H2). by eapply Hm.
Qed.

Lemma keeps_refs_ret {A} (x : A) : keeps_refs (mret x).
Proof. by intros s y s' [= _ <-]. Qed.

Lemma keeps_refs_check b : keeps_refs (require_ b) ∧ keeps_refs (verify_ b).
Proof. split; intros s x s'; destruct b; simpl; intros ?; by simplify_eq. Qed.

Lemma keeps_refs_sentinel : keeps_refs ReferenceCounted.sentinel.
Proof. intros s x s'. rewrite sentinel_spec. by intros [= _ <-]. Qed.

Lemma keeps_refs_isSentinel p :
  keeps_refs (ReferenceCounted.isSentinel p) ∧
  keeps_refs (ReferenceCounted.isNotSentinel p).
Proof.
  split; intros s x s'; rewrite ?isSentinel_spec, ?isNotSentinel_spec;
    by intros [= _ <-].
Qed.

Lemma keeps_refs_count p :
  keeps_refs (load_rc p) ∧ keeps_refs (incr p) ∧ keeps_refs (decr p).
Proof.
  split_and!; intros s x s'; unfold load_rc, incr, decr;
    (destruct (rc s p); [|done]); intros [= _ <-]; by rewrite ?refs_set_rc.
Qed.

Lemma keeps_refs_free p : keeps_refs (ReferenceCounted.free p).
Proof.
  unfold ReferenceCounted.free.
  apply keeps_refs_bind; [apply keeps_refs_count|intros c].
  apply keeps_refs_bind; [apply keeps_refs_check|intros _].
  apply keeps_refs_bind; [apply keeps_refs_isSentinel|intros b].
  apply keeps_refs_bind; [apply keeps_refs_check|intros _].
  intros s x s'. unfold delete_object.
  destruct p as [| |a]; try done. destruct (heap s !! a); [|done].
  intros ?. by simplify_eq.
Qed.

(** The statements that follow the decrement, in [set] and the destructor. *)
Lemma keeps_refs_release p c :
  keeps_refs (if c =? 0 then
                b ← ReferenceCounted.isNotSentinel p;
                verify_ b;; ReferenceCounted.free p
              else mret ()).
Proof.
  destruct (c =? 0); [|apply keeps_refs_ret].
  apply keeps_refs_bind; [apply keeps_refs_isSentinel|intros b].
  apply keeps_refs_bind; [apply keeps_refs_check|intros _].
  apply keeps_refs_free.
Qed.

Lemma set_refs s h o s' :
  Ref.set h o s = Ok () s' → refs s' = <[h:=o]> (refs s).
Proof.
  unfold Ref.set. intros (old & s1 & Hload & H)%bind_Ok_inv.
  unfold load_object_ in Hload. destruct (refs s !! h) eqn:Hh; [|done].
  injection Hload as -> <-.
  apply bind_Ok_inv in H as ([] & s2 & Hstore & H).
  unfold store_object_ in Hstore. rewrite Hh in Hstore. injection Hstore as <-.
  apply bind_Ok_inv in H as (c1 & s3 & Hincr & H).
  apply (proj1 (proj2 (keeps_refs_count o))) in Hincr.
  apply bind_Ok_inv in H as (c2 & s4 & Hdecr & H).
  apply (proj2 (proj2 (keeps_refs_count old))) in Hdecr.
  apply keeps_refs_release in H. by rewrite H, Hdecr, Hincr.
Qed.

(** X15.  Whatever the state, when a handle operation returns, the handles
    are those that the rules of plain pointers give; in particular no
    operation changes what a handle other than its subject holds. *)
Theorem handles_behave_as_pointers (o : op) (s s' : state) :
  step o s = Ok () s' →
  refs s' = refs_after o (refs s) ∧
  ∀ g, g ≠ subject o → refs s' !! g = refs s !! g.
Proof.
  intros Hstep.
  assert (refs s' = refs_after o (refs s)) as Hrefs.
  { destruct o as [h|h p|h r|h r|h|h]; simpl in *.
    - unfold Ref.ctor_default, Ref.sentinel in Hstep.
      apply bind_Ok_inv in Hstep as (q & s1 & Hsent & H).
      rewrite sentinel_spec in Hsent. injection Hsent as <- <-.
      apply bind_Ok_inv in H as ([] & s2 & Hinit & H).
      unfold init_object_ in Hinit. simpl in Hinit.
      destruct (refs s !! h); [done|]. injection Hinit as <-.
      apply bind_Ok_inv in H as (c & s3 & Hincr & H).
      apply (proj1 (proj2 (keeps_refs_count _))) in Hincr.
      apply keeps_refs_ret in H. by rewrite H, Hincr.
    - unfold Ref.ctor_object in Hstep.
      apply bind_Ok_inv in Hstep as ([] & s1 & Hinit & H).
      unfold init_object_ in Hinit.
      destruct (refs s !! h); [done|]. injection Hinit as <-.
      apply bind_Ok_inv in H as ([] & s2 & Hreq & H).
      apply keeps_refs_check in Hreq.
      apply bind_Ok_inv in H as (c & s3 & Hincr & H).
      apply (proj1 (proj2 (keeps_refs_count _))) in Hincr.
      apply keeps_refs_ret in H. by rewrite H, Hincr, Hreq.
    - unfold Ref.ctor_copy in Hstep.
      apply bind_Ok_inv in Hstep as (p & s1 & Hload & H).
      unfold load_object_ in Hload. destruct (refs s !! r) eqn:Hr; [|done].
      injection Hload as -> <-.
      apply bind_Ok_inv in H as ([] & s2 & Hinit & H).
      unfold init_object_ in Hinit.
      destruct (refs s !! h); [done|]. injection Hinit as <-.
      apply bind_Ok_inv in H as (c & s3 & Hincr & H).
      apply (proj1 (proj2 (keeps_refs_count _))) in Hincr.
      apply keeps_refs_ret in H. by rewrite H, Hincr.
    - unfold Ref.operator_assign in Hstep.
      apply bind_Ok_inv in Hstep as (p & s1 & Hload & H).
      unfold load_object_ in Hload. destruct (refs s !! r) eqn:Hr; [|done].
      injection Hload as -> <-. by apply set_refs.
    - unfold Ref.reset in Hstep.
      apply bind_Ok_inv in Hstep as (p & s1 & Hload & H).
      unfold load_object_ in Hload. destruct (refs s !! h) eqn:Hh; [|done].
      injection Hload as -> <-.
      apply bind_Ok_inv in H as (b & s2 & Hnot & H).
      rewrite isNotSentinel_spec in Hnot. injection Hnot as <- <-.
      case_bool_decide as Hp.
      + apply bind_Ok_inv in H as (c & s3 & Hdecr & H).
        apply (proj2 (proj2 (keeps_refs_count _))) in Hdecr.
        apply bind_Ok_inv in H as ([] & s4 & Hfree & H).
        assert (refs s4 = refs s3) as Hfree'.
        { destruct (c =? 0); [by eapply keeps_refs_free|by eapply keeps_refs_ret]. }
        unfold Ref.sentinel in H.
        apply bind_Ok_inv in H as (q & s5 & Hsent & H).
        rewrite sentinel_spec in Hsent. injection Hsent as <- <-.
        apply bind_Ok_inv in H as ([] & s6 & Hstore & H).
        unfold store_object_ in Hstore. simpl in Hstore.
        destruct (refs s4 !! h); [|done]. injection Hstore as <-.
        apply bind_Ok_inv in H as (c' & s7 & Hincr & H).
        apply (proj1 (proj2 (keeps_refs_count _))) in Hincr.
        apply keeps_refs_ret in H. rewrite H, Hincr. simpl.
        by rewrite Hfree', Hdecr.
      + subst p. apply keeps_refs_ret in H.
        rewrite H. simpl. symmetry. by apply insert_id.
    - unfold Ref.dtor in Hstep.
      apply bind_Ok_inv in Hstep as (p & s1 & Hload & H).
      unfold load_object_ in Hload. destruct (refs s !! h) eqn:Hh; [|done].
      injection Hload as -> <-.
      apply bind_Ok_inv in H as (c & s2 & Hdecr & H).
      apply (proj2 (proj2 (keeps_refs_count _))) in Hdecr.
      apply bind_Ok_inv in H as ([] & s3 & Hrel & Hend).
      apply keeps_refs_release in Hrel.
      unfold end_object_ in Hend. destruct (refs s3 !! h); [|done].
      injection Hend as <-. simpl. by rewrite Hrel, Hdecr. }
  split; [exact Hrefs|].
  intros g Hg. rewrite Hrefs.
  destruct o as [h|h p|h r|h r|h|h]; simpl in *;
    try destruct (refs s !! r);
    by rewrite ?lookup_insert_ne, ?lookup_delete_ne by done.
Qed.

Lemma handles_behave_as_pointers_witness :
  let s := final [ConstructFrom 1 (Heap 7); DefaultConstruct 2]%positive (fresh_object 7) in
  let s' := final [Assign 2 1]%positive s in
  refs s' = refs_after (Assign 2 1)%positive (refs s) ∧
  ∀ g, g ≠ subject (Assign 2 1)%positive → refs s' !! g = refs s !! g.
Proof.
  intros s s'. apply (handles_behave_as_pointers (Assign 2 1)%positive s s').
  vm_compute. reflexivity.
Defined.

(** ** X16: the converting copy constructor, assignment and comparisons *)

(** X16.  The member templates over a second handle type: converting copy
    construction from a live handle [r] on [p] returns, the two handles
    compare equal in both directions, the one count of [p] went up by one
    (in [u32]), and, when that count is not [0], the converting assignment
    in the same direction, of [r] to the new handle, changes nothing. *)
Theorem converting_copy_shares (s : state) (h r : name) (p : ptr) (c : Z) :
  refs s !! r = Some p → refs s !! h = None → rc s p = Some c →
  ∃ s', Ref_S.ctor_copy h r s = Ok () s' ∧
        Ref_S.operator_eq h r s' = Ok true s' ∧
        Ref_S.operator_eq r h s' = Ok true s' ∧
        Ref_S.operator_ne h r s' = Ok false s' ∧
        rc s' p = Some (u32_wrap (c + 1)) ∧
        (u32_wrap (c + 1) ≠ 0 → Ref_S.operator_assign h r s' = Ok () s').
Proof.
  intros Hr Hh Hp.
  change (Ref_S.ctor_copy h r s) with (Ref.ctor_copy h r s).
  rewrite (ctor_copy_spec s h r p c) by done.
  set (s' := set_rc (bound s h p) p (u32_wrap (c + 1))).
  assert (h ≠ r) as Hne by congruence.
  assert (refs s' !! h = Some p) as Hh'.
  { unfold s'. rewrite refs_set_rc. apply lookup_insert_eq. }
  assert (refs s' !! r = Some p) as Hr'.
  { unfold s'. rewrite refs_set_rc. simpl. by rewrite lookup_insert_ne. }
  assert (rc s' p = Some (u32_wrap (c + 1))) as Hp'.
  { unfold s'. eapply rc_set_rc_eq. by rewrite rc_bound. }
  exists s'. split_and!; try done.
  - change (Ref_S.operator_eq h r s') with (Ref.operator_eq h r s').
    rewrite (operator_eq_spec s' h r p p) by done. by rewrite bool_decide_true.
  - change (Ref_S.operator_eq r h s') with (Ref.operator_eq r h s').
    rewrite (operator_eq_spec s' r h p p) by done. by rewrite bool_decide_true.
  - change (Ref_S.operator_ne h r s') with (Ref.operator_ne h r s').
    rewrite (operator_ne_spec s' h r p p) by done.
    by rewrite bool_decide_false by (intros ?; done).
  - intros Hnz. unfold Ref_S.operator_assign, Ref._get.
    erewrite bind_Ok by (unfold load_object_; rewrite Hr'; reflexivity).
    apply (set_same_target s' h p (u32_wrap (c + 1))); [done..|]. u32_lia.
Qed.

Lemma converting_copy_shares_witness :
  let s := final [ConstructFrom 1 (Heap 7)]%positive (fresh_object 7) in
  ∃ s', Ref_S.ctor_copy 2%positive 1%positive s = Ok () s' ∧
        Ref_S.operator_eq 2%positive 1%positive s' = Ok true s' ∧
        Ref_S.operator_eq 1%positive 2%positive s' = Ok true s' ∧
        Ref_S.operator_ne 2%positive 1%positive s' = Ok false s' ∧
        rc s' (Heap 7) = Some (u32_wrap (1 + 1)) ∧
        (u32_wrap (1 + 1) ≠ 0 →
         Ref_S.operator_assign 2%positive 1%positive s' = Ok () s').
Proof.
  intros s. apply (converting_copy_shares s 2%positive 1%positive (Heap 7) 1).
  - vm_compute. reflexivity.
  - vm_compute. reflexivity.
  - vm_compute. reflexivity.
Defined.

(** ** X17: what handle operations never do to the heap *)

(** X17.  From a consistent state, along a run within the limit that
    returns: no object comes into existence; an object that disappeared is
    in the log of deletions, and the log only grows; and an object that is
    alive with the count [0] at the end had the count [0] at the start, so
    an object that lost its last owner on the way has been deleted, not
    leaked. *)
Theorem handle_operations_only_delete (ops : list op) (s0 s : state) :
  consistent s0 → within_limit ops s0 → run ops s0 = Ok () s →
  (∀ a, is_Some (heap s !! a) → is_Some (heap s0 !! a)) ∧
  (∀ a, is_Some (heap s0 !! a) → is_Some (heap s !! a) ∨ a ∈ freed s) ∧
  (∀ a, a ∈ freed s0 → a ∈ freed s) ∧
  (∀ a, heap s !! a = Some 0 → heap s0 !! a = Some 0).
Proof.
  intros Hs0 Hlim Hrun.
  destruct (run_evolves ops s0 s Hs0 Hlim Hrun) as [Halive Hgone Hfreed Hlog].
  split_and!.
  - intros a [c Hc]. destruct (Halive a c Hc) as (c0 & Hc0 & _). by eexists.
  - intros a Ha0. destruct (heap s !! a) as [c|] eqn:Hc; [left; by eexists|].
    destruct (Hgone a Hc) as [Hnone|Hin]; [|by right].
    rewrite Hnone in Ha0. by destruct Ha0.
  - exact Hlog.
  - intros a Hz. destruct (Halive a 0 Hz) as (c0 & Hc0 & [<-|?]); done.
Qed.

Lemma handle_operations_only_delete_witness :
  let ops := [ConstructFrom 1 (Heap 7); CopyConstruct 2 1; Reset 1; Destroy 2]%positive in
  let s0 := fresh_object 7 in
  let s := final ops s0 in
  (∀ a, is_Some (heap s !! a) → is_Some (heap s0 !! a)) ∧
  (∀ a, is_Some (heap s0 !! a) → is_Some (heap s !! a) ∨ a ∈ freed s) ∧
  (∀ a, a ∈ freed s0 → a ∈ freed s) ∧
  (∀ a, heap s !! a = Some 0 → heap s0 !! a = Some 0).
Proof.
  intros ops s0 s. apply (handle_operations_only_delete ops s0 s).
  - apply consistent_fresh_object.
  - apply fits_u32_within. vm_compute. reflexivity.
  - vm_compute. reflexivity.
Defined.
